(** * clang-format-hook: a shallow embedding of [src/clang-format-hook.cpp]

    The program walks the input paths for [.cpp] and [.h] files, runs the
    formatter on each of them through [popen], compares what the formatter
    prints with the bytes on disk and exits with 2 when some file differs.

    Strings ([std::string], [char*], file contents) are [string]; [int]s are
    [Z]; sizes and offsets ([size_t]) are [nat]. *)

From Equations Require Import Equations.
From Stdlib Require Import List String Ascii ZArith Arith Bool Lia.
From Stdlib Require Import DecimalString Permutation.
Import ListNotations.

Local Open Scope string_scope.
Local Open Scope list_scope.

(** ** Characters and strings *)

Definition NUL : ascii := Ascii.zero.
Definition LF : ascii := ascii_of_nat 10.
Definition DQUOTE : ascii := ascii_of_nat 34.
Definition BACKSLASH : ascii := ascii_of_nat 92.

(** [std::endl] and ['\n'] both put one line feed on the stream. *)
Definition endl : string := String LF "".

(** A [char*] read as a C string stops at the first NUL. *)
Fixpoint c_str (s : string) : string :=
  match s with
  | "" => ""
  | String c s' => if Ascii.eqb c NUL then "" else String c (c_str s')
  end.

Fixpoint nul_free (s : string) : bool :=
  match s with
  | "" => true
  | String c s' => negb (Ascii.eqb c NUL) && nul_free s'
  end.

(** [std::to_string(int)]. *)
Definition to_string (n : Z) : string := NilZero.string_of_int (Z.to_int n).

(** ** [std::filesystem::path] *)

(** The filename of a path is what follows its last ['/']. *)
Fixpoint filename_from (acc s : string) : string :=
  match s with
  | "" => acc
  | String c s' =>
      if Ascii.eqb c "/" then filename_from "" s'
      else filename_from (acc ++ String c "") s'
  end.

Definition filename (p : string) : string := filename_from "" p.

(** [rfind_dot s] is the index of the last ['.'] of [s]. *)
Fixpoint rfind_dot (s : string) : option nat :=
  match s with
  | "" => None
  | String c s' =>
      match rfind_dot s' with
      | Some i => Some (S i)
      | None => if Ascii.eqb c "." then Some 0 else None
      end
  end.

Definition starts_with_dot (s : string) : bool :=
  match s with
  | String c _ => Ascii.eqb c "."
  | "" => false
  end.

(** Where the extension of the filename starts: an empty filename, ["."],
    [".."] and a filename whose only period is its first character have no
    extension. *)
Definition find_extension (p : string) : option nat :=
  let s := filename p in
  if Nat.eqb (String.length s) 0 then None
  else if Nat.leb (String.length s) 2 && starts_with_dot s then None
  else match rfind_dot s with
       | Some 0 => None
       | Some pos => Some pos
       | None => None
       end.

Definition path_has_extension (p : string) : bool :=
  match find_extension p with Some _ => true | None => false end.

Definition path_extension (p : string) : string :=
  match find_extension p with
  | Some pos => substring pos (String.length (filename p) - pos) (filename p)
  | None => ""
  end.

(** [operator/] on a directory and the name of one of its entries. *)
Fixpoint ends_with_slash (s : string) : bool :=
  match s with
  | "" => false
  | String c "" => Ascii.eqb c "/"
  | String _ s' => ends_with_slash s'
  end.

Definition path_append (dir name : string) : string :=
  if Nat.eqb (String.length dir) 0 then name
  else if ends_with_slash dir then dir ++ name
  else dir ++ "/" ++ name.

(** ** The file system

    What a path resolves to when the program runs: a directory with its
    entries; something that is not a directory, which is either a file that
    can be opened, with its bytes, or a path that cannot be opened (missing,
    dangling link, no permission on the file); a directory that cannot be
    opened for listing; or a path whose status cannot be read (a name that
    is too long, a directory on the way that cannot be searched, too many
    links).  The last two carry the text of the error the library reports.
    The tree is finite: there are no link cycles, which the traversal does
    not detect. *)

#[warnings="-register-all"]
Inductive fsnode : Type :=
| Directory (entries : list (string * fsnode))
| NonDirectory (contents : option string)
| Unlistable (what : string)
| NoStatus (what : string).

(** A [fs::path] value together with what it resolves to. *)
Record path : Type := mkPath { native : string; target : fsnode }.

(** A call into [std::filesystem] returns or throws
    [std::filesystem::filesystem_error]. *)
Inductive fs_result (A : Type) : Type :=
| Ok (a : A)
| filesystem_error (what : string).

Arguments Ok {A} a.
Arguments filesystem_error {A} what.

(** [is_directory(current)], the overload that throws: a path that does
    not exist is no directory; a status that cannot be read is an error. *)
Definition is_directory (p : path) : fs_result bool :=
  match target p with
  | Directory _ => Ok true
  | Unlistable _ => Ok true
  | NonDirectory _ => Ok false
  | NoStatus what => filesystem_error what
  end.

Definition child_of (dir : string) (e : string * fsnode) : path :=
  mkPath (path_append dir (fst e)) (snd e).

(** [fs::directory_iterator(current)], in iteration order; it throws when
    the directory cannot be opened.  The loop calls it only on what
    [is_directory] accepted; the text for the other paths is the one of
    libstdc++. *)
Definition directory_iterator (current : path) : fs_result (list path) :=
  match target current with
  | Directory entries => Ok (map (child_of (native current)) entries)
  | Unlistable what => filesystem_error what
  | NoStatus what => filesystem_error what
  | NonDirectory _ =>
      filesystem_error
        ("filesystem error: directory iterator cannot open directory: "
         ++ "Not a directory [" ++ native current ++ "]")
  end.

Definition has_extension (p : path) : bool := path_has_extension (native p).
Definition extension (p : path) : string := path_extension (native p).

(** [in.is_open()] after [std::ifstream in(file)]: a file that can be
    opened is open, and so is a directory that can be read. *)
Definition is_open (file : path) : bool :=
  match target file with
  | Directory _ => true
  | NonDirectory (Some _) => true
  | NonDirectory None => false
  | Unlistable _ => false
  | NoStatus _ => false
  end.

(** What the read gives for an open stream: the bytes of a file.  For a
    directory there are none: [in.tellg()] gives -1 there. *)
Definition read_file (file : path) : option string :=
  match target file with
  | NonDirectory contents => contents
  | Directory _ => None
  | Unlistable _ => None
  | NoStatus _ => None
  end.

(** The text of the [std::length_error] that
    [file_contents.resize(size_t(-1), 0)] throws, as libstdc++ words it. *)
Definition length_error_what : string := "basic_string::_M_replace_aux".

Fixpoint weight (n : fsnode) : nat :=
  match n with
  | Directory entries => S (list_sum (map (fun e => weight (snd e)) entries))
  | NonDirectory _ => 1
  | Unlistable _ => 1
  | NoStatus _ => 1
  end.

Definition worklist_weight (l : list path) : nat :=
  list_sum (map (fun p => weight (target p)) l).

Lemma worklist_weight_app l1 l2 :
  worklist_weight (l1 ++ l2) = worklist_weight l1 + worklist_weight l2.
Proof.
  unfold worklist_weight. rewrite map_app, list_sum_app. reflexivity.
Qed.

Lemma list_sum_rev l : list_sum (rev l) = list_sum l.
Proof.
  induction l as [|x l IH]; simpl; [reflexivity|].
  rewrite list_sum_app, IH. simpl. lia.
Qed.

Lemma worklist_weight_rev l : worklist_weight (rev l) = worklist_weight l.
Proof.
  unfold worklist_weight. rewrite map_rev. apply list_sum_rev.
Qed.

Lemma worklist_weight_children dir entries :
  worklist_weight (map (child_of dir) entries)
  = list_sum (map (fun e => weight (snd e)) entries).
Proof.
  unfold worklist_weight. rewrite map_map. reflexivity.
Qed.

(** ** File discovery: [listSrcFiles] *)

Definition inspect {A} (a : A) : {b : A | a = b} := exist _ a eq_refl.

Definition allowed_extension (ext : string) : bool :=
  String.eqb ext ".cpp" || String.eqb ext ".h".

Lemma weight_positive n : 1 <= weight n.
Proof. destruct n; simpl; lia. Qed.

Lemma directory_iterator_weight current children :
  directory_iterator current = Ok children ->
  worklist_weight children < weight (target current).
Proof.
  unfold directory_iterator. destruct (target current); try discriminate.
  intros [= <-]. rewrite worklist_weight_children. simpl. lia.
Qed.

(** The [while (!to_process.empty())] loop.  [to_process] is the vector
    read from its back: the head of the list is [to_process.back()], and the
    [push_back] of the entries of a directory, one after the other, leaves
    the last entry at the back.  An exception of [is_directory] or of
    [directory_iterator] leaves the loop and the function. *)
Equations? listSrcFiles_loop (to_process : list path) (src_files : list path)
  : fs_result (list path) by wf (worklist_weight to_process) lt :=
  listSrcFiles_loop [] src_files := Ok src_files;
  listSrcFiles_loop (current :: rest) src_files with inspect (is_directory current) := {
    | exist _ (filesystem_error what) Hdir => filesystem_error what;
    | exist _ (Ok true) Hdir with inspect (directory_iterator current) := {
        | exist _ (filesystem_error what) Hlist => filesystem_error what;
        | exist _ (Ok children) Hlist =>
            listSrcFiles_loop (rev children ++ rest) src_files };
    | exist _ (Ok false) Hdir =>
        if has_extension current then
          if allowed_extension (extension current) then
            listSrcFiles_loop rest (src_files ++ [current])
          else listSrcFiles_loop rest src_files
        else listSrcFiles_loop rest src_files }.
Proof.
  - rewrite worklist_weight_app, worklist_weight_rev.
    pose proof (directory_iterator_weight _ _ Hlist).
    change (worklist_weight (current :: rest))
      with (weight (target current) + worklist_weight rest). lia.
  - pose proof (weight_positive (target current)).
    unfold worklist_weight. simpl. lia.
  - pose proof (weight_positive (target current)).
    unfold worklist_weight. simpl. lia.
  - pose proof (weight_positive (target current)).
    unfold worklist_weight. simpl. lia.
Qed.

Definition listSrcFiles (root : path) : fs_result (list path) :=
  listSrcFiles_loop [root] [].

(** *** What discovery is to return *)

(** The paths under a root: the root itself and, for every directory under
    the root that can be listed, its entries. *)
Inductive reachable (root : path) : path -> Prop :=
| reachable_root : reachable root root
| reachable_entry (dir child : path) (children : list path) :
    reachable root dir ->
    directory_iterator dir = Ok children ->
    In child children ->
    reachable root child.

(** The allow-list of the program. *)
Definition allow_list : list string := [".cpp"; ".h"].

(** A path the loop appends to [src_files] when it pops it. *)
Definition kept (p : path) : Prop :=
  is_directory p = Ok false /\ In (extension p) allow_list.

Definition found_from (to_process : list path) (p : path) : Prop :=
  exists root, In root to_process /\ reachable root p /\ kept p.

(** What the filter is to do for a root: discovery returns, and what it
    returns is exactly the paths under the root that are not directories and
    whose extension is in the allow-list; a path without an extension is not
    among them. *)
Definition filter_correct (root : path) : Prop :=
  exists files,
    listSrcFiles root = Ok files
    /\ (forall p, In p files
                  <-> reachable root p /\ is_directory p = Ok false
                      /\ In (extension p) allow_list)
    /\ (forall p, has_extension p = false -> ~ In p files).

(** The calls the loop makes for a path succeed: its status can be read
    and, when it is a directory, it can be listed. *)
Definition accessible (p : path) : Prop :=
  match target p with
  | Directory _ => True
  | NonDirectory _ => True
  | Unlistable _ => False
  | NoStatus _ => False
  end.

(** One call after the other, up to the first that throws; the results of
    the calls that returned, put together in order. *)
Fixpoint flat_map_ok {A B} (f : A -> fs_result (list B)) (l : list A)
  : fs_result (list B) :=
  match l with
  | [] => Ok []
  | a :: l' =>
      match f a with
      | filesystem_error what => filesystem_error what
      | Ok first =>
          match flat_map_ok f l' with
          | filesystem_error what => filesystem_error what
          | Ok others => Ok (first ++ others)
          end
      end
  end.

(** ** Effects

    A call prints on the two streams, opens files, spawns processes, and ends
    by returning, by throwing, or by [exit].  A computation is the events it
    performed, in order, and how it ended.  [Unfinished] marks a loop over
    [getopt_long] that was cut before the library ended the scan. *)

Inductive event : Type :=
| Cout (text : string)        (* written on [std::cout] *)
| Cerr (text : string)        (* written on [std::cerr] *)
| Discover (root : string)    (* [listSrcFiles(root)] is called *)
| Ifstream (file : string)    (* [std::ifstream in(file)] *)
| Popen (command : string).   (* [popen(command, "r")] *)

Inductive outcome (A : Type) : Type :=
| Returns (a : A)
| Throws (what : string)
| Exits (status : Z)
| Unfinished.

Arguments Returns {A} a.
Arguments Throws {A} what.
Arguments Exits {A} status.
Arguments Unfinished {A}.

Definition M (A : Type) : Type := (list event * outcome A)%type.

Definition trace {A} (m : M A) : list event := fst m.
Definition result {A} (m : M A) : outcome A := snd m.

Definition ret {A} (a : A) : M A := ([], Returns a).
Definition throw {A} (what : string) : M A := ([], Throws what).
Definition exit {A} (status : Z) : M A := ([], Exits status).
Definition emit (e : event) : M unit := ([e], Returns tt).

Definition bind {A B} (m : M A) (k : A -> M B) : M B :=
  match result m with
  | Returns a => (trace m ++ trace (k a), result (k a))
  | Throws what => (trace m, Throws what)
  | Exits status => (trace m, Exits status)
  | Unfinished => (trace m, Unfinished)
  end.

Notation "x <- m ;; k" := (bind m (fun x => k))
  (at level 61, m at next level, right associativity).
Notation "m ;; k" := (bind m (fun _ => k))
  (at level 61, right associativity).

(** An exception of a call into [std::filesystem] is an exception of the
    caller. *)
Definition lift {A} (r : fs_result A) : M A :=
  match r with
  | Ok a => ret a
  | filesystem_error what => throw what
  end.

(** What each stream received. *)
Fixpoint stdout_of (t : list event) : string :=
  match t with
  | [] => ""
  | Cout s :: t' => s ++ stdout_of t'
  | _ :: t' => stdout_of t'
  end.

Fixpoint stderr_of (t : list event) : string :=
  match t with
  | [] => ""
  | Cerr s :: t' => s ++ stderr_of t'
  | _ :: t' => stderr_of t'
  end.

Definition is_output (e : event) : bool :=
  match e with
  | Cout _ | Cerr _ => true
  | _ => false
  end.

(** ** The external tool runner: [runCmdForOutput] *)

Record CmdResult : Type := mkCmdResult { output : string; return_status : Z }.

(** [cmd_size]: the sizes of the arguments, plus [args.size() - 1]. *)
Definition cmd_size (args : list string) : nat :=
  fold_left (fun size arg => size + String.length arg) args 0
  + (List.length args - 1).

(** [std::memcpy(cmd.data() + off, src, n)] and [cmd[off] = c] on the
    vector [cmd], for writes that stay inside it. *)
Definition memcpy (cmd : list ascii) (off : nat) (src : list ascii) : list ascii :=
  firstn off cmd ++ src ++ skipn (off + List.length src) cmd.

Definition store (cmd : list ascii) (off : nat) (c : ascii) : list ascii :=
  firstn off cmd ++ c :: skipn (S off) cmd.

(** The second [for] loop, from index [i] on; [n] is [args.size()]. *)
Fixpoint fill_cmd (n i : nat) (args : list string)
    (cmd : list ascii) (cmd_offset : nat) : list ascii * nat :=
  match args with
  | [] => (cmd, cmd_offset)
  | arg :: args' =>
      let cmd := memcpy cmd cmd_offset (list_ascii_of_string arg) in
      let cmd_offset := cmd_offset + String.length arg in
      if Nat.ltb (i + 1) n
      then fill_cmd n (S i) args' (store cmd cmd_offset " "%char) (S cmd_offset)
      else fill_cmd n (S i) args' cmd cmd_offset
  end.

(** The vector [cmd] when [popen] is called. *)
Definition build_cmd (args : list string) : list ascii :=
  let cmd := repeat NUL (cmd_size args + 1) in
  let cmd := fst (fill_cmd (List.length args) 0 args cmd 0) in
  removelast cmd ++ [NUL].

(** What the tokens and the spaces between them take in the buffer. *)
Definition joined_length (args : list string) : nat :=
  list_sum (map String.length args) + (List.length args - 1).

(** [fgets(buffer, size, pipe)]: at most [size - 1] bytes, up to and with
    the first line feed; nothing at end of stream. *)
Fixpoint fgets_bytes (n : nat) (stream : string) : string * string :=
  match n, stream with
  | S n', String c stream' =>
      if Ascii.eqb c LF then (String c "", stream')
      else let (buffer, rest) := fgets_bytes n' stream' in (String c buffer, rest)
  | _, _ => ("", stream)
  end.

Definition fgets (size : nat) (stream : string) : option (string * string) :=
  match stream with
  | "" => None
  | _ => Some (fgets_bytes (size - 1) stream)
  end.

Lemma fgets_bytes_consumes n c stream :
  String.length (snd (fgets_bytes (S n) (String c stream))) <= String.length stream.
Proof.
  revert c stream. induction n as [|n IH]; intros c stream; simpl.
  - destruct (Ascii.eqb c LF); simpl; [lia|].
    destruct stream; simpl; lia.
  - destruct (Ascii.eqb c LF); simpl; [lia|].
    destruct stream as [|c' stream']; [simpl; lia|].
    specialize (IH c' stream'). cbn [fgets_bytes] in *.
    destruct (Ascii.eqb c' LF); [simpl in *; lia|].
    destruct (fgets_bytes n stream'); simpl in *. lia.
Qed.

Lemma fgets_consumes size stream buffer rest :
  2 <= size ->
  fgets size stream = Some (buffer, rest) ->
  String.length rest < String.length stream.
Proof.
  intros Hsize Hget. destruct stream as [|c stream]; [discriminate|].
  destruct size as [|[|n]]; try lia.
  unfold fgets in Hget. replace (S (S n) - 1) with (S n) in Hget by lia.
  pose proof (fgets_bytes_consumes n c stream) as Hlen.
  assert (Hb : fgets_bytes (S n) (String c stream) = (buffer, rest)) by congruence.
  rewrite Hb in Hlen. cbn [snd] in Hlen. cbn [String.length]. lia.
Qed.

(** The [while (fgets(...) != 0)] loop: [res.output += buffer] appends the
    buffer as a C string. *)
Equations? read_pipe (stream : string) (output : string) : string
  by wf (String.length stream) lt :=
  read_pipe stream output with inspect (fgets 1024 stream) := {
    | exist _ None _ => output;
    | exist _ (Some (buffer, rest)) Heq => read_pipe rest (output ++ c_str buffer) }.
Proof.
  eapply fgets_consumes; [|exact Heq]. lia.
Qed.

(** ** Command line *)

Record Settings : Type := mkSettings {
  clang_format_exe : string;
  inputs : list string
}.

Definition default_settings : Settings := mkSettings "clang-format" [].

(** The variables of [getopt]: [argv], which the library may reorder,
    [optind] and [optarg], and what the library keeps between two calls
    (where it is in a group of short options, and the non-options it
    skipped). *)
Record getopt_data : Type := mkGetopt {
  argv : list string;
  optind : Z;
  optarg : string;
  nextchar : string;
  first_nonopt : Z;
  last_nonopt : Z
}.

Definition getopt_start (args : list string) : getopt_data :=
  mkGetopt args 1 "" "" 1 1.

Definition argc (d : getopt_data) : Z := Z.of_nat (List.length (argv d)).

(** [argv[i]].  An index outside [argv] has no meaning in C; it reads as the
    empty string here. *)
Definition argv_at (d : getopt_data) (i : Z) : string :=
  if (i <? 0)%Z then "" else nth (Z.to_nat i) (argv d) "".

Definition code (c : ascii) : Z := Z.of_nat (nat_of_ascii c).

(** [argv[optind]], ..., [argv[argc - 1]]. *)
Definition positional (d : getopt_data) : list string :=
  map (fun k => argv_at d (optind d + Z.of_nat k))
      (seq 0 (Z.to_nat (argc d - optind d))).

(** [std::setw(width) << std::right << s]. *)
Definition setw_right (width : nat) (s : string) : string :=
  string_of_list_ascii (repeat " "%char (width - String.length s)) ++ s.

(** [operator<<] on a [fs::path]: the path between double quotes, with a
    backslash before each double quote and each backslash. *)
Fixpoint escaped (s : string) : string :=
  match s with
  | "" => ""
  | String c s' =>
      if Ascii.eqb c DQUOTE || Ascii.eqb c BACKSLASH
      then String BACKSLASH (String c (escaped s'))
      else String c (escaped s')
  end.

Definition quoted (s : string) : string :=
  String DQUOTE (escaped s) ++ String DQUOTE "".

Definition printHelp (exe_name : string) : M unit :=
  emit (Cout ("Usage: " ++ exe_name ++ " [options] <inputs>" ++ endl));;
  emit (Cout ("Checks the given inputs for code style changes" ++ endl));;
  emit (Cout endl);;
  emit (Cout ("Options:" ++ endl));;
  emit (Cout (setw_right 20 "-c, --clang-format" ++ "    "
              ++ "The clang-format executable to use" ++ endl)).

(** Everything [printHelp] writes. *)
Definition help_text (exe_name : string) : string :=
  stdout_of (trace (printHelp exe_name)).

(** The input paths a run handed to discovery. *)
Fixpoint roots (t : list event) : list string :=
  match t with
  | [] => []
  | Discover root :: t' => root :: roots t'
  | _ :: t' => roots t'
  end.

(** How the process ends: with an exit code (the value [main] returns or the
    argument of [exit]), or without one when an exception leaves [main] and
    [std::terminate] aborts the process. *)
Definition exit_code (run : M Z) : option Z :=
  match result run with
  | Returns status => Some status
  | Exits status => Some status
  | Throws _ => None
  | Unfinished => None
  end.

(** [contains needle s]: [needle] occurs in [s]. *)
Fixpoint contains (needle s : string) : bool :=
  String.prefix needle s
  || match s with
     | "" => false
     | String _ s' => contains needle s'
     end.

(** An argument error as the specification words it: the help text is on
    the error stream, the exit code is 1, and discovery was not started. *)
Definition usage_on_error_stream (run : M Z) (exe_name : string) : Prop :=
  contains (help_text exe_name) (stderr_of (trace run)) = true
  /\ exit_code run = Some 1%Z
  /\ roots (trace run) = [].

(** The command line of the check of [file] with the formatter [exe]. *)
Definition check_command (exe : string) (file : path) : string :=
  c_str (String.concat " " [exe; native file]).

(** The line [parseSettings] writes on [std::cerr] when [getopt_long]
    returned [o], which is [':'] or ['?'], and left [d]. *)
Definition option_error_message (o : Z) (d : getopt_data) : string :=
  if (o =? code ":")%Z
  then "The option " ++ argv_at d (optind d - 1) ++ " requires an argument" ++ endl
  else "Unknown options " ++ argv_at d (optind d - 1) ++ endl.

(** What the program does when [getopt_long] reports an error. *)
Definition argument_error (o : Z) (d : getopt_data) : list event :=
  Cerr (option_error_message o d) :: trace (printHelp (argv_at d 0)).

Section Program.

(** *** The environment of a run *)

(** [getopt_long(argc, argv, ":c:", opt, &longind)]: its return value and
    the variables after the call. *)
Variable getopt_long : getopt_data -> Z * getopt_data.

(** [popen(command, "r")]: no stream, or what the process writes on its
    standard output and what [pclose] returns for it. *)
Variable popen : string -> option (string * Z).

(** What an input path of the command line resolves to. *)
Variable resolve : string -> fsnode.

(** The value of an [int] that was never assigned. *)
Variable indeterminate : Z.

(** *** [parseSettings] *)

Fixpoint parseSettings_loop (fuel : nat) (d : getopt_data) (settings : Settings)
  : M (getopt_data * Settings) :=
  match fuel with
  | O => ([], Unfinished)
  | S fuel' =>
      let (o, d) := getopt_long d in
      if (o >=? 0)%Z then
        if (o =? code "c")%Z then
          parseSettings_loop fuel' d (mkSettings (optarg d) (inputs settings))
        else if (o =? code ":")%Z then
          emit (Cerr ("The option " ++ argv_at d (optind d - 1)
                      ++ " requires an argument" ++ endl));;
          printHelp (argv_at d 0);;
          exit 1%Z
        else if (o =? code "?")%Z then
          emit (Cerr ("Unknown options " ++ argv_at d (optind d - 1) ++ endl));;
          printHelp (argv_at d 0);;
          exit 1%Z
        else parseSettings_loop fuel' d settings
      else ret (d, settings)
  end.

Definition parseSettings (fuel : nat) (args : list string) : M Settings :=
  r <- parseSettings_loop fuel (getopt_start args) default_settings;;
  ret (mkSettings (clang_format_exe (snd r)) (inputs (snd r) ++ positional (fst r))).

(** *** [runCmdForOutput] *)

Definition runCmdForOutput (args : list string) : M CmdResult :=
  match args with
  | [] => ret (mkCmdResult "" indeterminate)
  | _ =>
      let cmd := c_str (string_of_list_ascii (build_cmd args)) in
      emit (Popen cmd);;
      match popen cmd with
      | None => throw ("Unable to run " ++ cmd)
      | Some (stream, status) => ret (mkCmdResult (read_pipe stream "") status)
      end
  end.

(** *** The format-diff checker: [getFileFormatDiff] *)

Definition getFileFormatDiff (file : path) (clang_format_exe : string)
  : M (option string) :=
  emit (Ifstream (native file));;
  if negb (is_open file) then throw ("Unable to open src file " ++ native file)
  else
  match read_file file with
  | None => throw length_error_what
  | Some file_contents =>
      res <- runCmdForOutput [clang_format_exe; native file];;
      if negb (return_status res =? 0)%Z then
        ret (Some ("Got return code " ++ to_string (return_status res)
                   ++ " when executing " ++ clang_format_exe ++ " "
                   ++ c_str (native file))%string)
      else if negb (String.eqb file_contents (output res)) then
        ret (Some (c_str (native file) ++ " changes when formatted.")%string)
      else ret None
  end.

(** *** [main] *)

Definition printDiff (p : path) (diff : string) : M unit :=
  emit (Cout ("File " ++ quoted (native p) ++ " needs formatting" ++ endl));;
  emit (Cout (diff ++ endl)).

(** The first loop of [main]: discovery, one input after the other; an
    exception of [listSrcFiles] leaves the loop and [main]. *)
Fixpoint discover (inputs : list string) (input_files : list path)
  : M (list path) :=
  match inputs with
  | [] => ret input_files
  | p :: inputs' =>
      emit (Discover p);;
      files <- lift (listSrcFiles (mkPath p (resolve p)));;
      discover inputs' (input_files ++ files)
  end.

(** The second loop of [main], its iterations one after the other in
    index order: the loop as it runs on one thread.  With more threads the
    iterations interleave (see [ParallelLoop]); what is stated of the order
    of the events of this loop is stated of one thread only. *)
Fixpoint check_files (input_files : list path) (exe : string)
    (inputs_need_formatting : bool) : M bool :=
  match input_files with
  | [] => ret inputs_need_formatting
  | input :: rest =>
      diff <- getFileFormatDiff input exe;;
      match diff with
      | Some d =>
          printDiff input d;;
          check_files rest exe true
      | None => check_files rest exe inputs_need_formatting
      end
  end.

Definition main (fuel : nat) (args : list string) : M Z :=
  settings <- parseSettings fuel args;;
  input_files <- discover (inputs settings) [];;
  inputs_need_formatting <- check_files input_files (clang_format_exe settings) false;;
  ret (if inputs_need_formatting then 2%Z else 0%Z).

(** *** Vocabulary for the properties of a run *)

(** The return values after which the loop of [parseSettings] makes no
    other call: a negative one, [':'] and ['?']. *)
Definition ends_scan (o : Z) : bool :=
  (o <? 0)%Z || (o =? code ":")%Z || (o =? code "?")%Z.

(** [scan_last d o d']: the calls of [getopt_long] that the loop makes from
    [d] end with a call that returns [o] and leaves [d']. *)
Inductive scan_last (d : getopt_data) : Z -> getopt_data -> Prop :=
| scan_last_here :
    ends_scan (fst (getopt_long d)) = true ->
    scan_last d (fst (getopt_long d)) (snd (getopt_long d))
| scan_last_later o d' :
    ends_scan (fst (getopt_long d)) = false ->
    scan_last (snd (getopt_long d)) o d' ->
    scan_last d o d'.

(** What the first loop of [main] gives for the input paths: the files
    found, in the order of the vector [input_files], or the exception of the
    first discovery that throws. *)
Definition discovered (inputs : list string) : fs_result (list path) :=
  flat_map_ok (fun p => listSrcFiles (mkPath p (resolve p))) inputs.

(** The verdict of the check of one file; a check that throws gives
    none. *)
Definition verdict_of (exe : string) (file : path) : option string :=
  match result (getFileFormatDiff file exe) with
  | Returns verdict => verdict
  | _ => None
  end.

Definition has_verdict (exe : string) (file : path) : bool :=
  match verdict_of exe file with Some _ => true | None => false end.

(** The check of a file returns (with or without a verdict). *)
Definition check_returns (exe : string) (file : path) : Prop :=
  exists verdict, result (getFileFormatDiff file exe) = Returns verdict.

(** The exit code rule, for a run whose checks use the formatter [exe] and
    whose discovered files are [files]: the exit code is 2 exactly when a
    discovered file produced a verdict, and 0 when none did. *)
Definition exit_code_rule (run : M Z) (exe : string) (files : list path) : Prop :=
  (exit_code run = Some 2%Z
   <-> exists file, In file files /\ verdict_of exe file <> None)
  /\ ((forall file, In file files -> verdict_of exe file = None) ->
      exit_code run = Some 0%Z).

End Program.

(** ** The C library's [getopt_long]

    A model of GNU [getopt_long] as [parseSettings] calls it: option string
    [":c:"], the one long option [clang-format] with a required argument and
    value ['c'], and [POSIXLY_CORRECT] not set, so that [argv] is permuted.
    The theorems on the program hold for any [getopt_long]; this model runs
    the program on concrete command lines. *)

Module Glibc.

(** [NONOPTION_P]: not starting with ['-'], or ["-"] alone. *)
Definition nonoption (arg : string) : bool :=
  match arg with
  | String c rest => negb (Ascii.eqb c "-") || String.eqb rest ""
  | "" => true
  end.

Definition slice (l : list string) (from to : Z) : list string :=
  firstn (Z.to_nat (to - from)) (skipn (Z.to_nat from) l).

(** [exchange]: the non-options [first_nonopt, last_nonopt) and the options
    [last_nonopt, optind) after them change places, each keeping its
    order. *)
Definition exchange (d : getopt_data) : getopt_data :=
  mkGetopt
    (firstn (Z.to_nat (first_nonopt d)) (argv d)
     ++ slice (argv d) (last_nonopt d) (optind d)
     ++ slice (argv d) (first_nonopt d) (last_nonopt d)
     ++ skipn (Z.to_nat (optind d)) (argv d))
    (optind d) (optarg d) (nextchar d)
    (first_nonopt d + (optind d - last_nonopt d)) (optind d).

(** [while (optind < argc && NONOPTION_P) optind++]. *)
Fixpoint skip_nonoptions (rest : list string) (i : Z) : Z :=
  match rest with
  | arg :: rest' => if nonoption arg then skip_nonoptions rest' (i + 1) else i
  | [] => i
  end.

Definition set_optind (d : getopt_data) (i : Z) : getopt_data :=
  mkGetopt (argv d) i (optarg d) (nextchar d) (first_nonopt d) (last_nonopt d).

Definition set_nonopt (d : getopt_data) (first last : Z) : getopt_data :=
  mkGetopt (argv d) (optind d) (optarg d) (nextchar d) first last.

(** An option element was read: [optind], [optarg] and the end of the
    group of short options. *)
Definition consumed (d : getopt_data) (i : Z) (arg : string) : getopt_data :=
  mkGetopt (argv d) i arg "" (first_nonopt d) (last_nonopt d).

(** The name of a long option: up to ['='] or the end; and what follows
    the ['='], when there is one. *)
Fixpoint long_name (s : string) : string :=
  match s with
  | "" => ""
  | String c s' => if Ascii.eqb c "=" then "" else String c (long_name s')
  end.

Fixpoint long_value (s : string) : option string :=
  match s with
  | "" => None
  | String c s' => if Ascii.eqb c "=" then Some s' else long_value s'
  end.

(** [process_long_option] on [argv[optind]] = ["--" ++ text]: an exact
    match or an abbreviation of [clang-format], which requires an
    argument. *)
Definition process_long_option (d : getopt_data) (text : string)
  : Z * getopt_data :=
  if String.prefix (long_name text) "clang-format" then
    match long_value text with
    | Some value => (code "c", consumed d (optind d + 1) value)
    | None =>
        if (optind d + 1 <? argc d)%Z
        then (code "c", consumed d (optind d + 2) (argv_at d (optind d + 1)))
        else (code ":", consumed d (optind d + 1) "")
    end
  else (code "?", consumed d (optind d + 1) "").

(** The next character [c] of a group of short options; [rest] is what
    follows it in the element. *)
Definition short_option (d : getopt_data) (c : ascii) (rest : string)
  : Z * getopt_data :=
  let i := if String.eqb rest "" then (optind d + 1)%Z else optind d in
  if Ascii.eqb c "c" then
    if negb (String.eqb rest "") then (code "c", consumed d (i + 1) rest)
    else if (i =? argc d)%Z then (code ":", consumed d i "")
    else (code "c", consumed d (i + 1) (argv_at d i))
  else
    (code "?", mkGetopt (argv d) i "" rest (first_nonopt d) (last_nonopt d)).

(** The scan moves to the next element of [argv].  First the options just
    read go before the non-options skipped so far, and the non-options that
    follow are skipped. *)
Definition permute (d : getopt_data) : getopt_data :=
  let d := set_nonopt d (Z.min (first_nonopt d) (optind d))
                        (Z.min (last_nonopt d) (optind d)) in
  let d :=
    if negb (first_nonopt d =? last_nonopt d)%Z
       && negb (last_nonopt d =? optind d)%Z
    then exchange d
    else if negb (last_nonopt d =? optind d)%Z
         then set_nonopt d (optind d) (last_nonopt d)
         else d in
  let d := set_optind d (skip_nonoptions (skipn (Z.to_nat (optind d)) (argv d))
                                         (optind d)) in
  set_nonopt d (first_nonopt d) (optind d).

(** The element ["--"] ends the options: what follows it is not scanned. *)
Definition end_of_options (d : getopt_data) : getopt_data :=
  if negb (optind d =? argc d)%Z && String.eqb (argv_at d (optind d)) "--"
  then
    let d := set_optind d (optind d + 1) in
    let d :=
      if negb (first_nonopt d =? last_nonopt d)%Z
         && negb (last_nonopt d =? optind d)%Z
      then exchange d
      else if (first_nonopt d =? last_nonopt d)%Z
           then set_nonopt d (optind d) (last_nonopt d)
           else d in
    set_optind (set_nonopt d (first_nonopt d) (argc d)) (argc d)
  else d.

(** At the end of [argv] the scan returns -1 with [optind] on the first
    non-option; otherwise the element is a long option or a group of short
    options. *)
Definition next_element (d : getopt_data) : Z * getopt_data :=
  let d := end_of_options (permute d) in
  if (optind d =? argc d)%Z then
    ((-1)%Z,
     if negb (first_nonopt d =? last_nonopt d)%Z
     then set_optind d (first_nonopt d) else d)
  else
    match argv_at d (optind d) with
    | String _ (String c text) =>
        if Ascii.eqb c "-" then process_long_option d text
        else short_option d c text
    | _ => (1%Z, consumed d (optind d + 1) (argv_at d (optind d)))
    end.

Definition getopt_long (d : getopt_data) : Z * getopt_data :=
  let d := mkGetopt (argv d) (optind d) "" (nextchar d)
                    (first_nonopt d) (last_nonopt d) in
  match argv d with
  | [] => ((-1)%Z, d)
  | _ =>
      match nextchar d with
      | "" => next_element d
      | String c rest => short_option d c rest
      end
  end.

(** The state between two calls of the loop: no group of short options is
    open, and the indices are in order. *)
Definition scanning (d : getopt_data) : Prop :=
  nextchar d = ""
  /\ (1 <= optind d <= argc d)%Z
  /\ (0 <= first_nonopt d <= last_nonopt d)%Z
  /\ (last_nonopt d <= optind d)%Z.

(** An element, or an option and its value, was consumed: the scan goes on
    from a greater [optind]. *)
Definition moved_on (d d' : getopt_data) : Prop :=
  scanning d' /\ (optind d < optind d')%Z /\ argc d' = argc d.

End Glibc.

(** ** A small run

    A directory [root] with [a.cpp], already formatted, [b.h], which ends a
    line with blanks that the formatter removes, and [c.txt].  The formatter
    [clang-format] fails on what it does not know; no process can be created
    for the executable [nofork]; the shell reports 127 for anything else. *)

Module Scenario.

Definition a_cpp : string := "int main() { return 0; }" ++ endl.
Definition b_h : string := "#pragma once  " ++ endl.
Definition b_h_formatted : string := "#pragma once" ++ endl.

Definition root : fsnode :=
  Directory [("a.cpp", NonDirectory (Some a_cpp));
             ("b.h", NonDirectory (Some b_h));
             ("c.txt", NonDirectory (Some "notes"))].

(** A project with a directory that the user may not list. *)
Definition project : fsnode :=
  Directory [("a.cpp", NonDirectory (Some a_cpp));
             ("private",
              Unlistable ("filesystem error: directory iterator cannot open "
                          ++ "directory: Permission denied [project/private]"))].

Definition resolve (p : string) : fsnode :=
  if String.eqb p "root" then root
  else if String.eqb p "root/a.cpp" then NonDirectory (Some a_cpp)
  else if String.eqb p "root/b.h" then NonDirectory (Some b_h)
  else if String.eqb p "root/c.txt" then NonDirectory (Some "notes")
  else if String.eqb p "project" then project
  else NonDirectory None.

Definition popen (command : string) : option (string * Z) :=
  if String.eqb command "clang-format root/a.cpp" then Some (a_cpp, 0%Z)
  else if String.eqb command "clang-format root/b.h" then Some (b_h_formatted, 0%Z)
  else if String.prefix "clang-format " command then Some ("", 256%Z)
  else if String.prefix "nofork " command then None
  else Some ("", 32512%Z).

Definition file (p : string) : path := mkPath p (resolve p).

Definition getFileFormatDiff : path -> string -> M (option string) :=
  getFileFormatDiff popen 0%Z.

Definition main : nat -> list string -> M Z :=
  main Glibc.getopt_long popen resolve 0%Z.

End Scenario.

(** ** The second loop of [main] under [#pragma omp parallel for]

    The iterations are shared out among threads.  An iteration shares nothing
    with the others while it checks its file; what it does to shared state
    after the check returned [diff] is, in order: the store to
    [inputs_need_formatting], then [printDiff], which takes [output_mutex],
    writes on [std::cout] and releases the mutex when its [lock_guard] goes
    out of scope.  A run of the loop is an interleaving of these steps, each
    of them atomic; however the iterations are shared out, the run is one of
    the interleavings below. *)

Inductive action : Type :=
| SetFlag                (* [inputs_need_formatting = true] *)
| Lock                   (* [std::lock_guard lock(output_mutex)] *)
| Write (text : string)  (* a statement [std::cout << ...] *)
| Unlock.                (* the end of [printDiff] *)

(** The statements of [printDiff] that write on [std::cout]. *)
Definition writes (m : M unit) : list action :=
  flat_map (fun e => match e with Cout text => [Write text] | _ => [] end)
           (trace m).

Definition iteration (input : path) (diff : option string) : list action :=
  match diff with
  | Some d => SetFlag :: Lock :: writes (printDiff input d) ++ [Unlock]
  | None => []
  end.

(** The shared state, and how far each iteration is in its steps. *)
Record shared : Type := mkShared {
  inputs_need_formatting : bool;
  output_mutex : option nat;
  cout : list string;
  pc : nat -> nat
}.

Definition start : shared := mkShared false None [] (fun _ => 0).

Section ParallelLoop.

(** The input files with what their checks returned. *)
Variable tasks : list (path * option string).

Definition program (i : nat) : list action :=
  match nth_error tasks i with
  | Some (input, diff) => iteration input diff
  | None => []
  end.

Definition next_action (s : shared) (i : nat) : option action :=
  nth_error (program i) (pc s i).

Definition advance (s : shared) (i : nat) : nat -> nat :=
  fun j => if Nat.eqb j i then S (pc s j) else pc s j.

(** Iteration [i] makes its next step; [Lock] waits while the mutex is
    held. *)
Definition step (i : nat) (s : shared) : option shared :=
  match next_action s i with
  | None => None
  | Some SetFlag =>
      Some (mkShared true (output_mutex s) (cout s) (advance s i))
  | Some Lock =>
      match output_mutex s with
      | None => Some (mkShared (inputs_need_formatting s) (Some i) (cout s) (advance s i))
      | Some _ => None
      end
  | Some (Write text) =>
      Some (mkShared (inputs_need_formatting s) (output_mutex s) (cout s ++ [text])
                     (advance s i))
  | Some Unlock =>
      Some (mkShared (inputs_need_formatting s) None (cout s) (advance s i))
  end.

(** A schedule names the iteration that makes each step. *)
Fixpoint run_schedule (schedule : list nat) (s : shared) : option shared :=
  match schedule with
  | [] => Some s
  | i :: schedule' =>
      match step i s with
      | Some s' => run_schedule schedule' s'
      | None => None
      end
  end.

(** All iterations are complete: the implicit barrier at the end of the
    loop. *)
Definition complete (s : shared) : Prop :=
  forall i, next_action s i = None.

(** The mutual exclusion the specification asks for: an iteration that is
    about to store to the flag or to write on the stream holds the mutex. *)
Definition flag_and_stream_guarded (s : shared) : Prop :=
  forall i a,
    next_action s i = Some a ->
    a = SetFlag \/ (exists text, a = Write text) ->
    output_mutex s = Some i.

(** Iteration [i] has made its store to the flag. *)
Definition started (s : shared) (i : nat) : Prop :=
  program i <> [] /\ 1 <= pc s i.

(** Iteration [i] is between its [Lock] and its [Unlock]. *)
Definition inside (s : shared) (i : nat) : Prop :=
  program i <> [] /\ 2 <= pc s i <= 4.

(** What holds of every state an interleaving reaches: the mutex is held by
    the iteration that is inside the region, and the flag is set exactly when
    an iteration has made its store. *)
Definition invariant (s : shared) : Prop :=
  (forall i, output_mutex s = Some i <-> inside s i)
  /\ (inputs_need_formatting s = true <-> exists i, started s i).

(** The steps the iterations have left. *)
Definition remaining (s : shared) : nat :=
  list_sum (map (fun i => List.length (program i) - pc s i)
                (seq 0 (List.length tasks))).

End ParallelLoop.

(** The files of a run with the verdicts of their checks. *)
Definition tasks_of (popen : string -> option (string * Z)) (indeterminate : Z)
    (exe : string) (files : list path) : list (path * option string) :=
  map (fun file => (file, verdict_of popen indeterminate exe file)) files.

(** Three files of the small run: two checks give a verdict. *)
Definition scenario_tasks : list (path * option string) :=
  tasks_of Scenario.popen 0%Z "clang-format"
           [Scenario.file "root/b.h"; Scenario.file "root/a.cpp";
            Scenario.file "root/c.txt"].


(** ** More environments for concrete runs *)

(** A formatter that prints [text] and ends with status 0, whatever the
    command. *)
Definition printing_popen (text : string) (command : string)
  : option (string * Z) :=
  Some (text, 0%Z).

(** ** More vocabulary *)

Section OptionsRead.

Variable getopt_long : getopt_data -> Z * getopt_data.

(** [scan_options d values o d']: as [scan_last], with the values of
    [optarg] after the calls that returned ['c'], in order. *)
Inductive scan_options (d : getopt_data)
  : list string -> Z -> getopt_data -> Prop :=
| scan_options_end :
    ends_scan (fst (getopt_long d)) = true ->
    scan_options d [] (fst (getopt_long d)) (snd (getopt_long d))
| scan_options_c values o d' :
    fst (getopt_long d) = code "c" ->
    scan_options (snd (getopt_long d)) values o d' ->
    scan_options d (optarg (snd (getopt_long d)) :: values) o d'
| scan_options_other values o d' :
    ends_scan (fst (getopt_long d)) = false ->
    fst (getopt_long d) <> code "c" ->
    scan_options (snd (getopt_long d)) values o d' ->
    scan_options d values o d'.

End OptionsRead.

(** What a run prints for one file: the two lines of [printDiff] when the
    check gave a verdict, nothing otherwise. *)
Definition report (popen : string -> option (string * Z)) (indeterminate : Z)
    (exe : string) (file : path) : string :=
  match verdict_of popen indeterminate exe file with
  | Some d => stdout_of (trace (printDiff file d))
  | None => ""
  end.

(** The commands given to [popen] and the files opened, in order. *)
Fixpoint commands (t : list event) : list string :=
  match t with
  | [] => []
  | Popen command :: t' => command :: commands t'
  | _ :: t' => commands t'
  end.

Fixpoint opened (t : list event) : list string :=
  match t with
  | [] => []
  | Ifstream file :: t' => file :: opened t'
  | _ :: t' => opened t'
  end.

(** The lines iteration [i] of the parallel loop writes. *)
Definition report_lines (tasks : list (path * option string)) (i : nat)
  : list string :=
  flat_map (fun a => match a with Write text => [text] | _ => [] end)
           (program tasks i).

(** The lines the holder of the mutex has written so far. *)
Definition written (tasks : list (path * option string)) (s : shared)
  : list string :=
  match output_mutex s with
  | Some holder => firstn (pc s holder - 2) (report_lines tasks holder)
  | None => []
  end.

(** What holds of the stream in every state an interleaving reaches: the
    whole reports of the iterations that have released the mutex, in the
    order they took it, then what the holder has written. *)
Definition output_invariant (tasks : list (path * option string)) (s : shared)
  : Prop :=
  exists order,
    NoDup order
    /\ (forall i, In i order <-> program tasks i <> [] /\ 5 <= pc s i)
    /\ cout s = flat_map (report_lines tasks) order ++ written tasks s.
(** * Properties

    ** File discovery *)

(** One turn of the loop. *)
Lemma listSrcFiles_loop_turn current rest src_files :
  listSrcFiles_loop (current :: rest) src_files
  = match is_directory current with
    | filesystem_error what => filesystem_error what
    | Ok true =>
        match directory_iterator current with
        | filesystem_error what => filesystem_error what
        | Ok children => listSrcFiles_loop (rev children ++ rest) src_files
        end
    | Ok false =>
        if has_extension current && allowed_extension (extension current)
        then listSrcFiles_loop rest (src_files ++ [current])
        else listSrcFiles_loop rest src_files
    end.
Proof.
  simp listSrcFiles_loop.
  generalize (inspect (is_directory current)). intros [r Hr].
  etransitivity; [|symmetry; rewrite Hr; reflexivity].
  destruct r as [[|]|what]; simp listSrcFiles_loop; [|cbn iota|reflexivity].
  - generalize (inspect (directory_iterator current)). intros [l Hl].
    etransitivity; [|symmetry; rewrite Hl; reflexivity].
    destruct l as [children|what]; simp listSrcFiles_loop; reflexivity.
  - destruct (has_extension current); reflexivity.
Qed.

Lemma worklist_weight_cons p l :
  worklist_weight (p :: l) = weight (target p) + worklist_weight l.
Proof. reflexivity. Qed.

Lemma flat_map_ok_app {A B} (f : A -> fs_result (list B)) l1 l2 :
  flat_map_ok f (l1 ++ l2)
  = match flat_map_ok f l1 with
    | filesystem_error what => filesystem_error what
    | Ok first =>
        match flat_map_ok f l2 with
        | filesystem_error what => filesystem_error what
        | Ok others => Ok (first ++ others)
        end
    end.
Proof.
  induction l1 as [|a l1 IH]; simpl.
  - destruct (flat_map_ok f l2); reflexivity.
  - destruct (f a) as [x|what]; [|reflexivity]. rewrite IH.
    destruct (flat_map_ok f l1) as [y|what]; [|reflexivity].
    destruct (flat_map_ok f l2) as [z|what]; [|reflexivity].
    rewrite app_assoc. reflexivity.
Qed.

(** Discovery of one root, case by case. *)
Lemma listSrcFiles_turn root :
  listSrcFiles root
  = match is_directory root with
    | filesystem_error what => filesystem_error what
    | Ok true =>
        match directory_iterator root with
        | filesystem_error what => filesystem_error what
        | Ok children => listSrcFiles_loop (rev children ++ []) []
        end
    | Ok false =>
        Ok (if has_extension root && allowed_extension (extension root)
            then [root] else [])
    end.
Proof.
  unfold listSrcFiles. rewrite listSrcFiles_loop_turn.
  destruct (is_directory root) as [[|]|what]; try reflexivity.
  destruct (has_extension root && allowed_extension (extension root));
    simp listSrcFiles_loop; reflexivity.
Qed.

Lemma listSrcFiles_loop_flat_map n : forall to_process src_files,
  worklist_weight to_process <= n ->
  listSrcFiles_loop to_process src_files
  = match flat_map_ok listSrcFiles to_process with
    | Ok files => Ok (src_files ++ files)
    | filesystem_error what => filesystem_error what
    end.
Proof.
  induction n as [|n IH]; intros [|current rest] src_files Hw;
    try (simp listSrcFiles_loop; simpl; rewrite app_nil_r; reflexivity).
  - rewrite worklist_weight_cons in Hw.
    pose proof (weight_positive (target current)). lia.
  - rewrite worklist_weight_cons in Hw.
    pose proof (weight_positive (target current)) as Hpos.
    rewrite listSrcFiles_loop_turn. cbn [flat_map_ok].
    rewrite listSrcFiles_turn.
    destruct (is_directory current) as [[|]|what]; [| |reflexivity].
    + destruct (directory_iterator current) as [children|what] eqn:Hlist;
        [|reflexivity].
      pose proof (directory_iterator_weight _ _ Hlist) as Hless.
      rewrite (IH (rev children ++ rest) src_files)
        by (rewrite worklist_weight_app, worklist_weight_rev; lia).
      rewrite (IH (rev children ++ []) [])
        by (rewrite worklist_weight_app, worklist_weight_rev;
            unfold worklist_weight at 2; simpl; lia).
      rewrite !flat_map_ok_app. cbn [flat_map_ok].
      destruct (flat_map_ok listSrcFiles (rev children)) as [x|what];
        [|reflexivity].
      rewrite app_nil_r. cbn [app].
      destruct (flat_map_ok listSrcFiles rest); reflexivity.
    + destruct (has_extension current && allowed_extension (extension current));
        rewrite (IH rest _) by lia;
        destruct (flat_map_ok listSrcFiles rest) as [x|what];
        try reflexivity.
      rewrite <- app_assoc. reflexivity.
Qed.

Lemma listSrcFiles_cases root :
  listSrcFiles root
  = match is_directory root with
    | filesystem_error what => filesystem_error what
    | Ok true =>
        match directory_iterator root with
        | filesystem_error what => filesystem_error what
        | Ok children => flat_map_ok listSrcFiles (rev children)
        end
    | Ok false =>
        Ok (if has_extension root && allowed_extension (extension root)
            then [root] else [])
    end.
Proof.
  rewrite listSrcFiles_turn.
  destruct (is_directory root) as [[|]|what]; try reflexivity.
  destruct (directory_iterator root) as [children|what]; [|reflexivity].
  rewrite (listSrcFiles_loop_flat_map _ _ _ (le_n _)), app_nil_r.
  destruct (flat_map_ok listSrcFiles (rev children)); reflexivity.
Qed.

Lemma flat_map_ok_in {A B} (f : A -> fs_result (list B)) l files :
  flat_map_ok f l = Ok files ->
  (forall a, In a l -> exists found, f a = Ok found)
  /\ (forall b, In b files
                <-> exists a found, In a l /\ f a = Ok found /\ In b found).
Proof.
  revert files. induction l as [|a l IH]; simpl; intros files Hok.
  - injection Hok as <-. split; [intros a []|]. intros b. split; [intros []|].
    intros [a [found [[] _]]].
  - destruct (f a) as [x|what] eqn:Hfa; [|discriminate].
    destruct (flat_map_ok f l) as [y|what]; [|discriminate].
    injection Hok as <-. destruct (IH y eq_refl) as [Hall Hin]. split.
    + intros a' [<-|Ha']; [eauto|auto].
    + intros b. rewrite in_app_iff, Hin. split.
      * intros [Hb|[a' [found [Ha' [Hf Hb]]]]]; [exists a, x; auto|].
        exists a', found. auto.
      * intros [a' [found [[<-|Ha'] [Hf Hb]]]].
        -- left. congruence.
        -- right. exists a', found. auto.
Qed.

Lemma flat_map_ok_returns {A B} (f : A -> fs_result (list B)) l :
  (forall a, In a l -> exists found, f a = Ok found) ->
  exists files, flat_map_ok f l = Ok files.
Proof.
  induction l as [|a l IH]; simpl; intros Hall; [eauto|].
  destruct (Hall a (or_introl eq_refl)) as [x ->].
  destruct IH as [y ->]; [auto|]. eauto.
Qed.

Lemma allowed_extension_spec ext :
  allowed_extension ext = true <-> In ext allow_list.
Proof.
  unfold allowed_extension, allow_list. rewrite orb_true_iff, !String.eqb_eq.
  simpl. intuition congruence.
Qed.

Lemma extension_allowed_has_extension p :
  allowed_extension (extension p) = true -> has_extension p = true.
Proof.
  unfold extension, has_extension, path_extension, path_has_extension.
  destruct (find_extension (native p)); [reflexivity|].
  discriminate.
Qed.

Lemma reachable_trans root mid p :
  reachable root mid -> reachable mid p -> reachable root p.
Proof.
  intros Hrm Hmp. induction Hmp as [|dir child children _ IH Hlist Hin];
    [assumption|].
  eapply reachable_entry; eassumption.
Qed.

Lemma reachable_inv root p :
  reachable root p ->
  p = root
  \/ exists children child,
       directory_iterator root = Ok children /\ In child children
       /\ reachable child p.
Proof.
  induction 1 as [|dir child children Hreach IH Hlist Hin]; [left; reflexivity|].
  right. destruct IH as [->|[cs [c [Hcs [Hc Hcd]]]]].
  - exists children, child. split; [assumption|]. split; [assumption|constructor].
  - exists cs, c. split; [assumption|]. split; [assumption|].
    eapply reachable_entry; eassumption.
Qed.

Lemma reachable_non_directory root p :
  is_directory root = Ok false -> reachable root p -> p = root.
Proof.
  intros Hroot Hreach. apply reachable_inv in Hreach.
  destruct Hreach as [->|[cs [c [Hcs _]]]]; [reflexivity|].
  unfold is_directory, directory_iterator in *.
  destruct (target root); discriminate.
Qed.

Lemma children_lighter root entries child :
  target root = Directory entries ->
  In child (map (child_of (native root)) entries) ->
  weight (target child) < weight (target root).
Proof.
  intros Heq Hin. rewrite Heq. simpl. apply in_map_iff in Hin.
  destruct Hin as [e [<- He]]. simpl. clear Heq.
  induction entries as [|e' entries IH]; [destruct He|].
  simpl. destruct He as [->|He]; [lia|]. specialize (IH He). lia.
Qed.

Lemma listSrcFiles_spec n : forall root,
  weight (target root) <= n ->
  (forall files, listSrcFiles root = Ok files ->
     (forall p, reachable root p -> accessible p)
     /\ (forall p, In p files <-> reachable root p /\ kept p))
  /\ ((forall p, reachable root p -> accessible p) ->
      exists files, listSrcFiles root = Ok files).
Proof.
  induction n as [|n IH]; intros root Hw;
    [pose proof (weight_positive (target root)); lia|].
  rewrite listSrcFiles_cases.
  unfold is_directory, directory_iterator.
  destruct (target root) as [entries|contents|what|what] eqn:Htarget.
  - set (children := map (child_of (native root)) entries).
    assert (Hlist : directory_iterator root = Ok children)
      by (unfold directory_iterator; rewrite Htarget; reflexivity).
    assert (Hdir : is_directory root = Ok true)
      by (unfold is_directory; rewrite Htarget; reflexivity).
    assert (Hlight : forall c, In c children -> weight (target c) <= n).
    { intros c Hc. pose proof (children_lighter _ _ _ Htarget Hc).
      rewrite Htarget in H. lia. }
    split.
    + intros files Hok. apply flat_map_ok_in in Hok.
      destruct Hok as [Hall Hin]. split.
      * intros p Hp. apply reachable_inv in Hp.
        destruct Hp as [->|[cs [c [Hcs [Hc Hcp]]]]];
          [unfold accessible; rewrite Htarget; exact I|].
        assert (cs = children) as -> by congruence.
        destruct (Hall c) as [found Hfound]; [rewrite <- in_rev; exact Hc|].
        destruct (IH c (Hlight c Hc)) as [Hsound _].
        apply (Hsound found Hfound). exact Hcp.
      * intros p. rewrite Hin. split.
        -- intros [c [found [Hc [Hfound Hp]]]]. rewrite <- in_rev in Hc.
           destruct (IH c (Hlight c Hc)) as [Hsound _].
           apply (Hsound found Hfound) in Hp. destruct Hp as [Hcp Hkept].
           split; [|exact Hkept].
           eapply reachable_trans; [|exact Hcp].
           eapply reachable_entry; [constructor|exact Hlist|exact Hc].
        -- intros [Hp Hkept]. apply reachable_inv in Hp.
           destruct Hp as [->|[cs [c [Hcs [Hc Hcp]]]]];
             [destruct Hkept; congruence|].
           assert (cs = children) as -> by congruence.
           destruct (Hall c) as [found Hfound]; [rewrite <- in_rev; exact Hc|].
           exists c, found. rewrite <- in_rev.
           split; [exact Hc|]. split; [exact Hfound|].
           destruct (IH c (Hlight c Hc)) as [Hsound _].
           apply (Hsound found Hfound). split; assumption.
    + intros Hacc. apply flat_map_ok_returns. intros c Hc.
      rewrite <- in_rev in Hc.
      destruct (IH c (Hlight c Hc)) as [_ Hreturns]. apply Hreturns.
      intros p Hp. apply Hacc. eapply reachable_trans; [|exact Hp].
      eapply reachable_entry; [constructor|exact Hlist|exact Hc].
  - assert (Hnd : is_directory root = Ok false)
      by (unfold is_directory; rewrite Htarget; reflexivity).
    split; [|eauto]. intros files [= <-]. split.
    + intros p Hp. apply (reachable_non_directory _ _ Hnd) in Hp. subst p.
      unfold accessible. rewrite Htarget. exact I.
    + intros p. unfold kept. rewrite <- allowed_extension_spec.
      destruct (has_extension root) eqn:Hext;
        [destruct (allowed_extension (extension root)) eqn:Hallowed|]; simpl.
      * split.
        -- intros [<-|[]]. split; [constructor|]. split; assumption.
        -- intros [Hp _]. left. symmetry.
           eapply reachable_non_directory; eassumption.
      * split; [intros []|]. intros [Hp [_ K]].
        apply (reachable_non_directory _ _ Hnd) in Hp. congruence.
      * split; [intros []|]. intros [Hp [_ K]].
        apply (reachable_non_directory _ _ Hnd) in Hp. subst p.
        apply extension_allowed_has_extension in K. congruence.
  - split; [discriminate|]. intros Hacc.
    specialize (Hacc root (reachable_root root)).
    unfold accessible in Hacc. rewrite Htarget in Hacc. destruct Hacc.
  - split; [discriminate|]. intros Hacc.
    specialize (Hacc root (reachable_root root)).
    unfold accessible in Hacc. rewrite Htarget in Hacc. destruct Hacc.
Qed.

(** C2. For every root under which every status can be read and every
    directory can be listed, [listSrcFiles] returns, and what it returns is
    exactly the paths reachable under the root that are not directories and
    whose extension is [.cpp] or [.h]; a path without an extension is never
    returned. *)
Theorem listSrcFiles_filter_correct (root : path) :
  (forall p, reachable root p -> accessible p) ->
  filter_correct root.
Proof.
  intros Hacc.
  destruct (listSrcFiles_spec _ root (le_n _)) as [Hsound Hreturns].
  destruct (Hreturns Hacc) as [files Hfiles]. exists files.
  destruct (Hsound files Hfiles) as [_ Hin].
  split; [exact Hfiles|]. split; [exact Hin|].
  intros p Hext Hp. apply Hin in Hp. destruct Hp as [_ [_ Hp]].
  apply allowed_extension_spec, extension_allowed_has_extension in Hp.
  congruence.
Qed.

Lemma scenario_root_accessible p :
  reachable (mkPath "root" Scenario.root) p -> accessible p.
Proof.
  intros Hp. apply reachable_inv in Hp.
  destruct Hp as [->|[cs [c [Hcs [Hc Hcp]]]]]; [exact I|].
  injection Hcs as <-.
  assert (Hleaf : is_directory c = Ok false /\ accessible c)
    by (destruct Hc as [<-|[<-|[<-|[]]]]; split; try reflexivity; exact I).
  destruct Hleaf as [Hnd Hacc].
  apply (reachable_non_directory _ _ Hnd) in Hcp. subst p. exact Hacc.
Qed.

Lemma listSrcFiles_filter_correct_witness :
  filter_correct (mkPath "root" Scenario.root)
  /\ listSrcFiles (mkPath "root" Scenario.root)
     = Ok [Scenario.file "root/b.h"; Scenario.file "root/a.cpp"].
Proof.
  split; [|reflexivity].
  apply (listSrcFiles_filter_correct (mkPath "root" Scenario.root)).
  exact scenario_root_accessible.
Defined.

(** A directory that cannot be listed: discovery throws, and [a.cpp] next
    to it is not returned. *)
Lemma listSrcFiles_filter_correct_counterexample :
  ~ filter_correct (mkPath "project" Scenario.project).
Proof.
  intros [files [Hfiles _]]. vm_compute in Hfiles. discriminate.
Qed.

(** ** Strings and buffers *)

Lemma list_ascii_of_string_app s1 s2 :
  list_ascii_of_string (s1 ++ s2)
  = (list_ascii_of_string s1 ++ list_ascii_of_string s2)%list.
Proof. induction s1 as [|c s1 IH]; simpl; [reflexivity|]. rewrite IH. reflexivity. Qed.

Lemma string_of_list_ascii_app l1 l2 :
  string_of_list_ascii (l1 ++ l2)
  = (string_of_list_ascii l1 ++ string_of_list_ascii l2)%string.
Proof. induction l1 as [|c l1 IH]; simpl; [reflexivity|]. rewrite IH. reflexivity. Qed.

Lemma length_list_ascii_of_string s :
  List.length (list_ascii_of_string s) = String.length s.
Proof. induction s as [|c s IH]; simpl; [reflexivity|]. rewrite IH. reflexivity. Qed.

Lemma c_str_terminated s : c_str (s ++ String NUL "") = c_str s.
Proof.
  induction s as [|c s IH]; simpl; [reflexivity|].
  destruct (Ascii.eqb c NUL); [reflexivity|]. rewrite IH. reflexivity.
Qed.

Lemma c_str_nul_free s : nul_free s = true -> c_str s = s.
Proof.
  induction s as [|c s IH]; simpl; [reflexivity|].
  destruct (Ascii.eqb c NUL); simpl; [discriminate|].
  intros H. rewrite IH by assumption. reflexivity.
Qed.


Lemma nul_free_append s1 s2 :
  nul_free (s1 ++ s2) = nul_free s1 && nul_free s2.
Proof.
  induction s1 as [|c s1 IH]; simpl; [reflexivity|].
  rewrite IH. apply andb_assoc.
Qed.

Lemma nul_free_concat args :
  forallb nul_free args = true -> nul_free (String.concat " " args) = true.
Proof.
  induction args as [|arg args IH]; [reflexivity|].
  cbn [forallb]. rewrite andb_true_iff. intros [Harg Hargs].
  destruct args as [|arg' args']; [exact Harg|].
  change (String.concat " " (arg :: arg' :: args'))
    with (arg ++ " " ++ String.concat " " (arg' :: args'))%string.
  rewrite !nul_free_append, Harg, IH by assumption. reflexivity.
Qed.

(** ** The external tool runner *)

Lemma cmd_size_joined args : cmd_size args = joined_length args.
Proof.
  unfold cmd_size, joined_length. f_equal.
  change (list_sum (map String.length args))
    with (0 + list_sum (map String.length args)).
  generalize 0. induction args as [|arg args IH]; intros n; simpl; [lia|].
  rewrite IH. lia.
Qed.

Lemma memcpy_fresh (prefix src : list ascii) k :
  List.length src <= k ->
  memcpy (prefix ++ repeat NUL k) (List.length prefix) src
  = (prefix ++ src ++ repeat NUL (k - List.length src))%list.
Proof.
  intros Hk. unfold memcpy.
  rewrite firstn_app, firstn_all, Nat.sub_diag, firstn_0, app_nil_r.
  rewrite skipn_app, skipn_all2 by lia. simpl.
  replace (List.length prefix + List.length src - List.length prefix)
    with (List.length src) by lia.
  f_equal. f_equal.
  replace k with (List.length src + (k - List.length src)) at 1 by lia.
  rewrite repeat_app, skipn_app, skipn_all2 by (rewrite repeat_length; lia).
  rewrite repeat_length, Nat.sub_diag. reflexivity.
Qed.

Lemma store_fresh (prefix : list ascii) c k :
  1 <= k ->
  store (prefix ++ repeat NUL k) (List.length prefix) c
  = (prefix ++ c :: repeat NUL (k - 1))%list.
Proof.
  intros Hk. unfold store.
  rewrite firstn_app, firstn_all, Nat.sub_diag, firstn_0, app_nil_r.
  rewrite skipn_app, skipn_all2 by lia.
  replace (S (List.length prefix) - List.length prefix) with 1 by lia.
  destruct k as [|k]; [lia|]. simpl. rewrite Nat.sub_0_r. reflexivity.
Qed.

(** The loop writes the tokens and the spaces between them after what the
    buffer holds already, and leaves the rest of the buffer as it was. *)
Lemma joined_length_cons arg args :
  joined_length (arg :: args)
  = String.length arg
    + match args with [] => 0 | _ :: _ => 1 + joined_length args end.
Proof. unfold joined_length. destruct args; simpl; lia. Qed.

Lemma app_cons_last {A} (l : list A) (x : A) (r : list A) :
  (l ++ x :: r = (l ++ [x]) ++ r)%list.
Proof. rewrite <- app_assoc. reflexivity. Qed.

Lemma fill_cmd_joined args : forall n i prefix k,
  i + List.length args = n ->
  joined_length args <= k ->
  fst (fill_cmd n i args (prefix ++ repeat NUL k) (List.length prefix))
  = (prefix ++ list_ascii_of_string (String.concat " " args)
       ++ repeat NUL (k - joined_length args))%list.
Proof.
  induction args as [|arg args IH]; intros n i prefix k Hn Hk.
  - simpl. rewrite Nat.sub_0_r. reflexivity.
  - cbn [fill_cmd].
    pose proof (length_list_ascii_of_string arg) as Harg.
    rewrite joined_length_cons in *.
    rewrite memcpy_fresh by (destruct args; lia).
    destruct args as [|arg' args'].
    + replace (Nat.ltb (i + 1) n) with false
        by (symmetry; apply Nat.ltb_ge; simpl in Hn; lia).
      cbn [fill_cmd fst String.concat]. rewrite Harg, Nat.add_0_r. reflexivity.
    + replace (Nat.ltb (i + 1) n) with true
        by (symmetry; apply Nat.ltb_lt; simpl in Hn; lia).
      replace (List.length prefix + String.length arg)
        with (List.length (prefix ++ list_ascii_of_string arg))
        by (rewrite length_app, Harg; reflexivity).
      rewrite app_assoc, store_fresh by lia.
      rewrite app_cons_last.
      replace (S (List.length (prefix ++ list_ascii_of_string arg)))
        with (List.length ((prefix ++ list_ascii_of_string arg) ++ [" "%char]))
        by (rewrite (length_app _ [" "%char]); simpl; lia).
      rewrite (IH n (S i)) by (simpl in *; lia).
      change (String.concat " " (arg :: arg' :: args'))
        with (arg ++ " " ++ String.concat " " (arg' :: args'))%string.
      rewrite !list_ascii_of_string_app, <- !app_assoc. simpl.
      do 4 f_equal. f_equal. lia.
Qed.

Lemma build_cmd_joined args :
  args <> [] ->
  build_cmd args = (list_ascii_of_string (String.concat " " args) ++ [NUL])%list.
Proof.
  intros Hne. unfold build_cmd.
  pose proof (fill_cmd_joined args (List.length args) 0 [] (cmd_size args + 1)) as H.
  simpl in H. rewrite H by (rewrite ?cmd_size_joined; lia).
  rewrite cmd_size_joined.
  replace (joined_length args + 1 - joined_length args) with 1 by lia.
  simpl. rewrite removelast_last. reflexivity.
Qed.

Lemma command_of_args args :
  args <> [] ->
  c_str (string_of_list_ascii (build_cmd args)) = c_str (String.concat " " args).
Proof.
  intros Hne. rewrite build_cmd_joined by assumption.
  rewrite string_of_list_ascii_app, string_of_list_ascii_of_string. simpl.
  apply c_str_terminated.
Qed.

(** ** Computations *)

Lemma roots_app t1 t2 : roots (t1 ++ t2) = (roots t1 ++ roots t2)%list.
Proof.
  induction t1 as [|e t1 IH]; [reflexivity|].
  destruct e; simpl; rewrite IH; reflexivity.
Qed.

Section CheckerProperties.

Variable popen : string -> option (string * Z).
Variable indeterminate : Z.

Local Abbreviation run_cmd := (runCmdForOutput popen indeterminate).
Local Abbreviation format_diff := (getFileFormatDiff popen indeterminate).

Lemma runCmdForOutput_unfold args :
  args <> [] ->
  run_cmd args
  = let cmd := c_str (String.concat " " args) in
    ([Popen cmd],
     match popen cmd with
     | None => Throws ("Unable to run " ++ cmd)
     | Some (stream, status) => Returns (mkCmdResult (read_pipe stream "") status)
     end).
Proof.
  intros Hne. destruct args as [|arg args]; [congruence|].
  unfold runCmdForOutput. rewrite command_of_args by assumption.
  cbv zeta. destruct (popen _) as [[stream status]|]; reflexivity.
Qed.

Lemma read_file_is_open file contents :
  read_file file = Some contents -> is_open file = true.
Proof.
  unfold read_file, is_open. destruct (target file); try discriminate.
  intros ->. reflexivity.
Qed.

Lemma getFileFormatDiff_unreadable file exe :
  is_open file = false ->
  format_diff file exe
  = ([Ifstream (native file)],
     Throws ("Unable to open src file " ++ native file)).
Proof. intros H. unfold getFileFormatDiff. rewrite H. reflexivity. Qed.

Lemma getFileFormatDiff_directory file exe :
  is_open file = true ->
  read_file file = None ->
  format_diff file exe = ([Ifstream (native file)], Throws length_error_what).
Proof.
  intros Hopen Hread. unfold getFileFormatDiff. rewrite Hopen, Hread.
  reflexivity.
Qed.

Lemma getFileFormatDiff_not_read file exe :
  read_file file = None ->
  exists what,
    format_diff file exe = ([Ifstream (native file)], Throws what).
Proof.
  intros Hread. destruct (is_open file) eqn:Hopen.
  - rewrite getFileFormatDiff_directory by assumption. eauto.
  - rewrite getFileFormatDiff_unreadable by assumption. eauto.
Qed.

Lemma getFileFormatDiff_not_launched file exe contents :
  read_file file = Some contents ->
  popen (check_command exe file) = None ->
  format_diff file exe
  = ([Ifstream (native file); Popen (check_command exe file)],
     Throws ("Unable to run " ++ check_command exe file)).
Proof.
  intros Hread Hpopen. unfold getFileFormatDiff.
  rewrite (read_file_is_open _ _ Hread), Hread. cbn [negb].
  rewrite runCmdForOutput_unfold by discriminate. cbv zeta.
  fold (check_command exe file). rewrite Hpopen. reflexivity.
Qed.

Lemma getFileFormatDiff_launched file exe contents stream status :
  read_file file = Some contents ->
  popen (check_command exe file) = Some (stream, status) ->
  format_diff file exe
  = ([Ifstream (native file); Popen (check_command exe file)],
     Returns
       (if negb (status =? 0)%Z then
          Some ("Got return code " ++ to_string status ++ " when executing "
                ++ exe ++ " " ++ c_str (native file))%string
        else if negb (String.eqb contents (read_pipe stream "")) then
          Some (c_str (native file) ++ " changes when formatted.")%string
        else None)).
Proof.
  intros Hread Hpopen. unfold getFileFormatDiff.
  rewrite (read_file_is_open _ _ Hread), Hread. cbn [negb].
  rewrite runCmdForOutput_unfold by discriminate. cbv zeta.
  fold (check_command exe file). rewrite Hpopen.
  unfold bind. simpl.
  destruct (negb (status =? 0)%Z); [reflexivity|].
  destruct (negb (String.eqb contents (read_pipe stream ""))); reflexivity.
Qed.

(** A check returns or throws: it never calls [exit]. *)
Lemma getFileFormatDiff_result file exe :
  (exists verdict, result (format_diff file exe) = Returns verdict)
  \/ (exists what, result (format_diff file exe) = Throws what).
Proof.
  destruct (read_file file) as [contents|] eqn:Hread.
  - destruct (popen (check_command exe file)) as [[stream status]|] eqn:Hpopen.
    + left. erewrite getFileFormatDiff_launched by eassumption. eexists. reflexivity.
    + right. erewrite getFileFormatDiff_not_launched by eassumption.
      eexists. reflexivity.
  - right. destruct (is_open file) eqn:Hopen.
    + rewrite getFileFormatDiff_directory by assumption. eexists. reflexivity.
    + rewrite getFileFormatDiff_unreadable by assumption. eexists. reflexivity.
Qed.

(** For tokens without NUL, as C strings are, the command is the tokens
    themselves. *)
Lemma check_command_nul_free exe file :
  nul_free exe = true -> nul_free (native file) = true ->
  check_command exe file = (exe ++ " " ++ native file)%string.
Proof.
  intros Hexe Hfile. unfold check_command. apply c_str_nul_free.
  apply (nul_free_concat [exe; native file]). simpl.
  rewrite Hexe, Hfile. reflexivity.
Qed.

End CheckerProperties.

(** ** The external tool runner and the format-diff checker *)

Section CheckerTheorems.

Variable popen : string -> option (string * Z).
Variable indeterminate : Z.

(** C5. For a non-empty sequence of tokens, the buffer [cmd] that
    [runCmdForOutput] builds is the tokens in order, one space between two
    consecutive tokens, and a final NUL, with nothing quoted or escaped; and
    the one process the call spawns is [popen] on that buffer read as a C
    string. *)
Theorem runCmdForOutput_command_line (args : list string) :
  args <> [] ->
  build_cmd args = (list_ascii_of_string (String.concat " " args) ++ [NUL])%list
  /\ trace (runCmdForOutput popen indeterminate args)
     = [Popen (c_str (string_of_list_ascii (build_cmd args)))]
  /\ c_str (string_of_list_ascii (build_cmd args)) = c_str (String.concat " " args).
Proof.
  intros Hne. split; [apply build_cmd_joined; assumption|].
  split; [|apply command_of_args; assumption].
  rewrite runCmdForOutput_unfold, command_of_args by assumption. reflexivity.
Qed.

(** C3. When the file can be read and the formatter ends with status 0, the
    checker returns no verdict exactly when what it captured of the
    formatter's output equals the bytes of the file; when they differ, the
    verdict is the path of the file followed by [" changes when
    formatted."]. *)
Theorem getFileFormatDiff_compares_bytes
    (file : path) (exe contents stream : string) :
  read_file file = Some contents ->
  popen (check_command exe file) = Some (stream, 0%Z) ->
  (result (getFileFormatDiff popen indeterminate file exe) = Returns None
   <-> read_pipe stream "" = contents)
  /\ (read_pipe stream "" <> contents ->
      result (getFileFormatDiff popen indeterminate file exe)
      = Returns (Some (c_str (native file) ++ " changes when formatted.")%string)).
Proof.
  intros Hread Hpopen.
  rewrite (getFileFormatDiff_launched _ _ _ _ _ _ _ Hread Hpopen). simpl.
  destruct (String.eqb_spec contents (read_pipe stream "")) as [Heq|Hneq]; simpl.
  - split; [split; congruence|congruence].
  - split; [split; [discriminate|congruence]|reflexivity].
Qed.


End CheckerTheorems.

Lemma runCmdForOutput_command_line_witness :
  ["clang-format"; "root/a.cpp"] <> []
  /\ build_cmd ["clang-format"; "root/a.cpp"]
     = (list_ascii_of_string "clang-format root/a.cpp" ++ [NUL])%list
  /\ trace (runCmdForOutput Scenario.popen 0%Z ["clang-format"; "root/a.cpp"])
     = [Popen "clang-format root/a.cpp"].
Proof.
  split; [discriminate|].
  destruct (runCmdForOutput_command_line Scenario.popen 0%Z
              ["clang-format"; "root/a.cpp"]) as [Hcmd [Htrace Hstr]];
    [discriminate|].
  split; [exact Hcmd|]. rewrite Htrace, Hstr. reflexivity.
Defined.

Lemma getFileFormatDiff_compares_bytes_witness :
  (read_file (Scenario.file "root/a.cpp") = Some Scenario.a_cpp
   /\ Scenario.popen (check_command "clang-format" (Scenario.file "root/a.cpp"))
      = Some (Scenario.a_cpp, 0%Z)
   /\ result (Scenario.getFileFormatDiff (Scenario.file "root/a.cpp") "clang-format")
      = Returns None)
  /\ (read_file (Scenario.file "root/b.h") = Some Scenario.b_h
      /\ Scenario.popen (check_command "clang-format" (Scenario.file "root/b.h"))
         = Some (Scenario.b_h_formatted, 0%Z)
      /\ result (Scenario.getFileFormatDiff (Scenario.file "root/b.h") "clang-format")
         = Returns (Some "root/b.h changes when formatted.")).
Proof.
  split; (split; [reflexivity|split; [reflexivity|]]).
  - apply (getFileFormatDiff_compares_bytes Scenario.popen 0%Z
             (Scenario.file "root/a.cpp") "clang-format"
             Scenario.a_cpp Scenario.a_cpp); reflexivity.
  - apply (getFileFormatDiff_compares_bytes Scenario.popen 0%Z
             (Scenario.file "root/b.h") "clang-format"
             Scenario.b_h Scenario.b_h_formatted); [reflexivity|reflexivity|].
    vm_compute. discriminate.
Defined.


(** ** Runs of [main] *)

Lemma trace_bind {A B} (m : M A) (k : A -> M B) :
  trace (bind m k)
  = (trace m ++ match result m with Returns a => trace (k a) | _ => [] end)%list.
Proof. unfold bind. destruct (result m); simpl; rewrite ?app_nil_r; reflexivity. Qed.

Lemma result_bind {A B} (m : M A) (k : A -> M B) :
  result (bind m k)
  = match result m with
    | Returns a => result (k a)
    | Throws what => Throws what
    | Exits status => Exits status
    | Unfinished => Unfinished
    end.
Proof. unfold bind. destruct (result m); reflexivity. Qed.

Lemma code_colon : code ":" = 58%Z. Proof. reflexivity. Qed.
Lemma code_question : code "?" = 63%Z. Proof. reflexivity. Qed.
Lemma code_c : code "c" = 99%Z. Proof. reflexivity. Qed.

Section RunProperties.

Variable getopt_long : getopt_data -> Z * getopt_data.
Variable popen : string -> option (string * Z).
Variable resolve : string -> fsnode.
Variable indeterminate : Z.

Local Abbreviation parse_loop := (parseSettings_loop getopt_long).
Local Abbreviation parse := (parseSettings getopt_long).
Local Abbreviation format_diff := (getFileFormatDiff popen indeterminate).
Local Abbreviation checks_of := (check_files popen indeterminate).
Local Abbreviation discovery := (discover resolve).
Local Abbreviation found := (discovered resolve).
Local Abbreviation verdict := (verdict_of popen indeterminate).
Local Abbreviation returns := (check_returns popen indeterminate).
Local Abbreviation run := (main getopt_long popen resolve indeterminate).

(** *** [parseSettings] *)

Lemma parseSettings_loop_scan d o d' :
  scan_last getopt_long d o d' ->
  exists n, forall fuel settings, n <= fuel ->
    exists exe,
      parse_loop fuel d settings
      = if (o <? 0)%Z
        then ([], Returns (d', mkSettings exe (inputs settings)))
        else (argument_error o d', Exits 1%Z).
Proof.
  induction 1 as [d Hend|d o d' Hcont Hscan [n IH]].
  - exists 1. intros [|fuel] [exe ins] Hfuel; [lia|]. exists exe.
    cbn [parseSettings_loop].
    destruct (getopt_long d) as [o d1]. cbn [fst snd] in *.
    unfold ends_scan in Hend. rewrite code_colon, code_question, ?code_c in *.
    unfold argument_error, option_error_message. rewrite code_colon.
    destruct (o <? 0)%Z eqn:Hneg.
    + replace (o >=? 0)%Z with false by lia. reflexivity.
    + replace (o >=? 0)%Z with true by lia.
      replace (o =? 99)%Z with false by lia.
      destruct (o =? 58)%Z; [reflexivity|].
      simpl in Hend. rewrite Hend. reflexivity.
  - exists (S n). intros [|fuel] settings Hfuel; [lia|].
    cbn [parseSettings_loop].
    destruct (getopt_long d) as [o1 d1]. cbn [fst snd] in *.
    unfold ends_scan in Hcont. rewrite code_colon, code_question, ?code_c in *.
    apply orb_false_iff in Hcont. destruct Hcont as [Hcont Hq].
    apply orb_false_iff in Hcont. destruct Hcont as [Hneg Hcolon].
    replace (o1 >=? 0)%Z with true by lia. rewrite Hcolon, Hq.
    destruct (o1 =? 99)%Z.
    + destruct (IH fuel (mkSettings (optarg d1) (inputs settings))) as [exe Hexe];
        [lia|].
      exists exe. exact Hexe.
    + apply IH. lia.
Qed.

Lemma parseSettings_scan args o d' :
  scan_last getopt_long (getopt_start args) o d' ->
  exists n, forall fuel, n <= fuel ->
    exists exe,
      parse fuel args
      = if (o <? 0)%Z
        then ([], Returns (mkSettings exe (positional d')))
        else (argument_error o d', Exits 1%Z).
Proof.
  intros Hscan. destruct (parseSettings_loop_scan _ _ _ Hscan) as [n Hn].
  exists n. intros fuel Hfuel.
  destruct (Hn fuel default_settings Hfuel) as [exe Hexe]. exists exe.
  unfold parseSettings. rewrite Hexe.
  destruct (o <? 0)%Z; reflexivity.
Qed.

(** The loop ends in one of three ways, and prints only on an error. *)
Lemma parseSettings_loop_cases fuel : forall d settings,
  (exists r, parse_loop fuel d settings = ([], Returns r))
  \/ parse_loop fuel d settings = ([], Unfinished)
  \/ (exists o d', parse_loop fuel d settings
                   = (argument_error o d', Exits 1%Z)).
Proof.
  induction fuel as [|fuel IH]; intros d settings; [right; left; reflexivity|].
  cbn [parseSettings_loop].
  destruct (getopt_long d) as [o d1].
  destruct (o >=? 0)%Z; [|left; eexists; reflexivity].
  destruct (o =? code "c")%Z; [apply IH|].
  destruct (o =? code ":")%Z eqn:Hcolon.
  { right. right. exists o, d1.
    unfold argument_error, option_error_message. rewrite Hcolon. reflexivity. }
  destruct (o =? code "?")%Z; [|apply IH].
  right. right. exists o, d1.
  unfold argument_error, option_error_message. rewrite Hcolon. reflexivity.
Qed.

Lemma parseSettings_returns fuel args settings :
  result (parse fuel args) = Returns settings ->
  parse fuel args = ([], Returns settings).
Proof.
  unfold parseSettings.
  destruct (parseSettings_loop_cases fuel (getopt_start args) default_settings)
    as [[r Hr]|[Hr|[o [d' Hr]]]]; rewrite Hr; unfold bind; simpl;
    try discriminate.
  intros H. injection H as <-. reflexivity.
Qed.

(** *** Discovery and the checks *)

Lemma discover_unfold inputs : forall input_files files,
  found inputs = Ok files ->
  discovery inputs input_files
  = (map Discover inputs, Returns (input_files ++ files)%list).
Proof.
  unfold discovered.
  induction inputs as [|p inputs IH]; intros input_files files; simpl.
  - intros [= <-]. unfold ret. rewrite app_nil_r. reflexivity.
  - destruct (listSrcFiles (mkPath p (resolve p))) as [first|what];
      [|discriminate].
    destruct (flat_map_ok _ inputs) as [others|what]; [|discriminate].
    intros [= <-]. unfold bind. simpl. rewrite (IH _ others eq_refl). simpl.
    rewrite app_assoc. reflexivity.
Qed.

(** An exception in discovery: the inputs up to the one whose discovery
    throws were handed to [listSrcFiles], the others were not. *)
Lemma discover_throws inputs : forall input_files what,
  found inputs = filesystem_error what ->
  exists before p after,
    inputs = (before ++ p :: after)%list
    /\ listSrcFiles (mkPath p (resolve p)) = filesystem_error what
    /\ discovery inputs input_files
       = (map Discover (before ++ [p]), Throws what).
Proof.
  unfold discovered.
  induction inputs as [|p inputs IH]; intros input_files what; simpl;
    [discriminate|].
  destruct (listSrcFiles (mkPath p (resolve p))) as [first|what'] eqn:Hfirst.
  - destruct (flat_map_ok _ inputs) as [others|what'] eqn:Hothers;
      [discriminate|].
    intros [= ->].
    destruct (IH (input_files ++ first)%list what eq_refl)
      as [before [q [after [-> [Hq Hrun]]]]].
    exists (p :: before), q, after. split; [reflexivity|]. split; [exact Hq|].
    unfold bind. simpl. rewrite Hrun. reflexivity.
  - intros [= ->]. exists [], p, inputs. split; [reflexivity|].
    split; [exact Hfirst|]. reflexivity.
Qed.

Lemma roots_discover inputs : roots (map Discover inputs) = inputs.
Proof. induction inputs as [|p inputs IH]; simpl; [|rewrite IH]; reflexivity. Qed.

Lemma getFileFormatDiff_roots file exe :
  roots (trace (format_diff file exe)) = [].
Proof.
  destruct (read_file file) as [contents|] eqn:Hread.
  - destruct (popen (check_command exe file)) as [[stream status]|] eqn:Hpopen.
    + erewrite getFileFormatDiff_launched by eassumption. reflexivity.
    + erewrite getFileFormatDiff_not_launched by eassumption. reflexivity.
  - destruct (getFileFormatDiff_not_read popen indeterminate file exe Hread)
      as [what ->]. reflexivity.
Qed.

Lemma check_files_roots files exe : forall flag,
  roots (trace (checks_of files exe flag)) = [].
Proof.
  induction files as [|file files IH]; intros flag; [reflexivity|].
  cbn [check_files]. rewrite trace_bind, roots_app, getFileFormatDiff_roots.
  destruct (result (format_diff file exe)) as [[d|]| | |]; try reflexivity.
  - rewrite trace_bind, roots_app. simpl. apply IH.
  - simpl. apply IH.
Qed.

(** When every check returns, the flag is set exactly when a check gave a
    verdict. *)
Lemma check_files_returns files exe : forall flag,
  (forall file, In file files -> returns exe file) ->
  result (checks_of files exe flag)
  = Returns (flag || existsb (has_verdict popen indeterminate exe) files).
Proof.
  induction files as [|file files IH]; intros flag Hall.
  - simpl. rewrite orb_false_r. reflexivity.
  - cbn [check_files existsb]. rewrite result_bind.
    destruct (Hall file (or_introl eq_refl)) as [verdict Hverdict].
    unfold has_verdict at 1, verdict_of. rewrite Hverdict.
    destruct verdict as [d|].
    + rewrite result_bind. simpl. rewrite IH by (intros; apply Hall; right; assumption).
      rewrite orb_true_r. reflexivity.
    + rewrite IH by (intros; apply Hall; right; assumption). reflexivity.
Qed.

Lemma check_files_result files exe : forall flag,
  (exists b, result (checks_of files exe flag) = Returns b)
  \/ (exists what, result (checks_of files exe flag) = Throws what).
Proof.
  induction files as [|file files IH]; intros flag; [left; eexists; reflexivity|].
  cbn [check_files]. rewrite result_bind.
  destruct (getFileFormatDiff_result popen indeterminate file exe)
    as [[[d|] Hv]|[what Hw]].
  - rewrite Hv, result_bind. simpl. apply IH.
  - rewrite Hv. apply IH.
  - rewrite Hw. right. eexists. reflexivity.
Qed.

(** A check that throws makes the loop throw, at that file or at an
    earlier one. *)
Lemma check_files_some_throws files exe file :
  In file files ->
  (exists what, result (format_diff file exe) = Throws what) ->
  forall flag, exists what, result (checks_of files exe flag) = Throws what.
Proof.
  induction files as [|f files IH]; intros Hin Hthrows flag; [destruct Hin|].
  cbn [check_files]. rewrite result_bind.
  destruct (getFileFormatDiff_result popen indeterminate f exe)
    as [[verdict Hv]|[what Hw]].
  - rewrite Hv. destruct Hin as [->|Hin].
    + destruct Hthrows as [what Hw]. congruence.
    + destruct verdict as [d|]; [|apply IH; assumption].
      rewrite result_bind.
      change (result (printDiff f d)) with (@Returns unit tt). cbv iota.
      apply IH; assumption.
  - rewrite Hw. eauto.
Qed.

(** *** [main] *)

Lemma main_after_parse fuel args settings files :
  result (parse fuel args) = Returns settings ->
  found (inputs settings) = Ok files ->
  let checks := checks_of files (clang_format_exe settings) false in
  run fuel args
  = ((map Discover (inputs settings) ++ trace checks)%list,
     match result checks with
     | Returns flag => Returns (if flag then 2%Z else 0%Z)
     | Throws what => Throws what
     | Exits status => Exits status
     | Unfinished => Unfinished
     end).
Proof.
  intros Hparse Hfound checks. apply parseSettings_returns in Hparse.
  unfold main. rewrite Hparse. unfold bind at 1. simpl.
  rewrite (discover_unfold _ _ _ Hfound). unfold bind at 1. simpl. fold checks.
  unfold bind. destruct (result checks); simpl; rewrite ?app_nil_r; reflexivity.
Qed.

Lemma main_discovery_throws fuel args settings what :
  result (parse fuel args) = Returns settings ->
  found (inputs settings) = filesystem_error what ->
  exists before p after,
    inputs settings = (before ++ p :: after)%list
    /\ listSrcFiles (mkPath p (resolve p)) = filesystem_error what
    /\ run fuel args = (map Discover (before ++ [p]), Throws what).
Proof.
  intros Hparse Hfound. apply parseSettings_returns in Hparse.
  destruct (discover_throws _ [] _ Hfound) as [before [p [after [Heq [Hp Hrun]]]]].
  exists before, p, after. split; [exact Heq|]. split; [exact Hp|].
  unfold main. rewrite Hparse. unfold bind at 1. simpl.
  rewrite Hrun. reflexivity.
Qed.

Lemma main_after_error fuel args o d :
  parse fuel args = (argument_error o d, Exits 1%Z) ->
  run fuel args = (argument_error o d, Exits 1%Z).
Proof. intros Hparse. unfold main. rewrite Hparse. reflexivity. Qed.

End RunProperties.

(** ** Whole runs *)

Lemma append_empty_r s : (s ++ "")%string = s.
Proof. induction s as [|c s IH]; simpl; [|rewrite IH]; reflexivity. Qed.

Section RunTheorems.

Variable getopt_long : getopt_data -> Z * getopt_data.
Variable popen : string -> option (string * Z).
Variable resolve : string -> fsnode.
Variable indeterminate : Z.

Local Abbreviation parse := (parseSettings getopt_long).
Local Abbreviation format_diff := (getFileFormatDiff popen indeterminate).
Local Abbreviation found := (discovered resolve).
Local Abbreviation verdict := (verdict_of popen indeterminate).
Local Abbreviation returns := (check_returns popen indeterminate).
Local Abbreviation run := (main getopt_long popen resolve indeterminate).

Lemma exists_verdict exe files :
  existsb (has_verdict popen indeterminate exe) files = true
  <-> exists file, In file files /\ verdict exe file <> None.
Proof.
  rewrite existsb_exists. unfold has_verdict.
  split; intros [file [Hin Hv]]; exists file; split; try assumption.
  - destruct (verdict exe file); [discriminate|discriminate].
  - destruct (verdict exe file); [reflexivity|congruence].
Qed.

(** C1, amended. For a run whose arguments are accepted, whose discovery
    returns (every status can be read and every directory listed) and in
    which every check returns (each discovered file can be read and its
    formatter process is created), the exit code is 2 exactly when a
    discovered file produced a verdict, and 0 when none did; the flag the
    second loop leaves is [true] exactly when a check returned a verdict. *)
Theorem main_exit_code (fuel : nat) (args : list string) (settings : Settings)
    (files : list path) :
  result (parse fuel args) = Returns settings ->
  found (inputs settings) = Ok files ->
  (forall file, In file files -> returns (clang_format_exe settings) file) ->
  roots (trace (run fuel args)) = inputs settings
  /\ exit_code_rule popen indeterminate (run fuel args)
                    (clang_format_exe settings) files
  /\ result (check_files popen indeterminate files
                         (clang_format_exe settings) false)
     = Returns (existsb (has_verdict popen indeterminate (clang_format_exe settings))
                        files).
Proof.
  intros Hparse Hfound Hall.
  assert (Hroots : roots (trace (run fuel args)) = inputs settings).
  { rewrite (main_after_parse _ _ _ _ _ _ _ _ Hparse Hfound). cbv zeta.
    unfold trace at 1. cbn [fst].
    rewrite roots_app, roots_discover, check_files_roots. apply app_nil_r. }
  split; [exact Hroots|].
  split; [|rewrite (check_files_returns _ _ _ _ _ Hall); reflexivity].
  assert (Hcode : exit_code (run fuel args)
                  = Some (if existsb (has_verdict popen indeterminate
                                        (clang_format_exe settings))
                                     files
                          then 2%Z else 0%Z)).
  { rewrite (main_after_parse _ _ _ _ _ _ _ _ Hparse Hfound). cbv zeta.
    unfold exit_code, result at 1. cbn [snd].
    rewrite (check_files_returns _ _ _ _ _ Hall). reflexivity. }
  unfold exit_code_rule. rewrite Hcode, <- exists_verdict.
  destruct (existsb _ _) eqn:Hex.
  - split; [split; reflexivity|]. intros Hnone.
    apply exists_verdict in Hex. destruct Hex as [file [Hin Hv]].
    elim Hv. apply Hnone. assumption.
  - split; [split; discriminate|reflexivity].
Qed.

(** C7, amended. When [getopt_long] reports an unknown option or an option
    without its value, the program writes one line that names the error on
    the error stream and the help text on the standard output, and calls
    [exit(1)] at once: no discovery, no file opened, no process. *)
Theorem argument_error_exits_1 (args : list string) (o : Z) (d' : getopt_data) :
  scan_last getopt_long (getopt_start args) o d' ->
  o = code ":" \/ o = code "?" ->
  exists n, forall fuel, n <= fuel ->
    run fuel args
    = (Cerr (option_error_message o d') :: trace (printHelp (argv_at d' 0)),
       Exits 1%Z)
    /\ stderr_of (trace (run fuel args)) = option_error_message o d'
    /\ stdout_of (trace (run fuel args)) = help_text (argv_at d' 0)
    /\ exit_code (run fuel args) = Some 1%Z
    /\ roots (trace (run fuel args)) = []
    /\ forallb is_output (trace (run fuel args)) = true.
Proof.
  intros Hscan Ho.
  destruct (parseSettings_scan _ _ _ _ Hscan) as [n Hn]. exists n.
  intros fuel Hfuel. destruct (Hn fuel Hfuel) as [exe Hparse].
  replace (o <? 0)%Z with false in Hparse
    by (destruct Ho as [-> | ->]; reflexivity).
  apply main_after_error with (popen := popen) (resolve := resolve)
    (indeterminate := indeterminate) in Hparse.
  rewrite Hparse. unfold argument_error.
  split; [reflexivity|]. split; [|repeat split].
  simpl. apply append_empty_r.
Qed.

(** C10. With no error in the options and no input path left after them,
    the run discovers nothing, checks nothing, prints nothing and returns
    0. *)
Theorem no_inputs_exits_0 (args : list string) (o : Z) (d' : getopt_data) :
  scan_last getopt_long (getopt_start args) o d' ->
  (o < 0)%Z ->
  positional d' = [] ->
  exists n, forall fuel, n <= fuel -> run fuel args = ([], Returns 0%Z).
Proof.
  intros Hscan Ho Hnone.
  destruct (parseSettings_scan _ _ _ _ Hscan) as [n Hn]. exists n.
  intros fuel Hfuel. destruct (Hn fuel Hfuel) as [exe Hparse].
  replace (o <? 0)%Z with true in Hparse by lia. rewrite Hnone in Hparse.
  rewrite (main_after_parse _ popen resolve indeterminate fuel args
             (mkSettings exe []) [])
    by (first [rewrite Hparse; reflexivity | reflexivity]).
  reflexivity.
Qed.

(** A discovered file whose check throws: the run ends by an exception
    and without an exit code, and so it does in whatever order the
    iterations of the second loop are made. *)
Lemma check_throws_aborts fuel args settings files file :
  result (parse fuel args) = Returns settings ->
  found (inputs settings) = Ok files ->
  In file files ->
  (exists what,
     result (format_diff file (clang_format_exe settings)) = Throws what) ->
  (exists what, result (run fuel args) = Throws what)
  /\ exit_code (run fuel args) = None
  /\ (forall order, Permutation files order ->
       exists what,
         result (check_files popen indeterminate order
                             (clang_format_exe settings) false)
         = Throws what).
Proof.
  intros Hparse Hfound Hin Hthrows.
  destruct (check_files_some_throws popen indeterminate files
              (clang_format_exe settings) file Hin Hthrows false) as [what Hw].
  assert (Hresult : result (run fuel args) = Throws what).
  { rewrite (main_after_parse _ _ _ _ _ _ _ _ Hparse Hfound). cbv zeta.
    unfold result at 1. cbn [snd]. rewrite Hw. reflexivity. }
  split; [eauto|]. split; [unfold exit_code; rewrite Hresult; reflexivity|].
  intros order Horder. apply (check_files_some_throws _ _ _ _ file).
  - apply (Permutation_in _ Horder Hin).
  - exact Hthrows.
Qed.

(** C6. When [popen] gives no stream, [runCmdForOutput] throws, and the
    exception leaves [getFileFormatDiff]; a run that discovered the file
    ends by an exception, without an exit code, in whatever order the files
    are checked.  A process that was created and ended with any status, zero
    or not, is returned as a [CmdResult]. *)
Theorem launch_failure_aborts (file : path) (exe contents : string) :
  read_file file = Some contents ->
  popen (check_command exe file) = None ->
  runCmdForOutput popen indeterminate [exe; native file]
  = ([Popen (check_command exe file)],
     Throws ("Unable to run " ++ check_command exe file))
  /\ format_diff file exe
     = ([Ifstream (native file); Popen (check_command exe file)],
        Throws ("Unable to run " ++ check_command exe file))
  /\ (forall fuel args settings files,
        result (parse fuel args) = Returns settings ->
        clang_format_exe settings = exe ->
        found (inputs settings) = Ok files ->
        In file files ->
        (exists what, result (run fuel args) = Throws what)
        /\ exit_code (run fuel args) = None
        /\ (forall order, Permutation files order ->
             exists what,
               result (check_files popen indeterminate order
                                   (clang_format_exe settings) false)
               = Throws what))
  /\ (forall tokens stream status,
        tokens <> [] ->
        popen (c_str (String.concat " " tokens)) = Some (stream, status) ->
        runCmdForOutput popen indeterminate tokens
        = ([Popen (c_str (String.concat " " tokens))],
           Returns (mkCmdResult (read_pipe stream "") status))).
Proof.
  intros Hread Hpopen.
  pose proof (getFileFormatDiff_not_launched _ indeterminate _ exe _ Hread Hpopen)
    as Hcheck.
  split; [|split; [exact Hcheck|split]].
  - rewrite runCmdForOutput_unfold by discriminate. cbv zeta.
    fold (check_command exe file). rewrite Hpopen. reflexivity.
  - intros fuel args settings files Hparse Hexe Hfound Hin.
    apply (check_throws_aborts fuel args settings files file Hparse Hfound Hin).
    rewrite Hexe, Hcheck. eexists. reflexivity.
  - intros tokens stream status Hne Hsome.
    rewrite runCmdForOutput_unfold by assumption. cbv zeta. rewrite Hsome.
    reflexivity.
Qed.

(** C8. When a file cannot be opened, [getFileFormatDiff] throws before it
    runs the formatter: it spawns no process and returns no verdict.  A run
    that discovered the file ends by an exception, without an exit code, in
    whatever order the files are checked. *)
Theorem read_failure_aborts (file : path) (exe : string) :
  is_open file = false ->
  format_diff file exe
  = ([Ifstream (native file)], Throws ("Unable to open src file " ++ native file))
  /\ verdict exe file = None
  /\ (forall fuel args settings files,
        result (parse fuel args) = Returns settings ->
        clang_format_exe settings = exe ->
        found (inputs settings) = Ok files ->
        In file files ->
        (exists what, result (run fuel args) = Throws what)
        /\ exit_code (run fuel args) = None
        /\ (forall order, Permutation files order ->
             exists what,
               result (check_files popen indeterminate order
                                   (clang_format_exe settings) false)
               = Throws what)).
Proof.
  intros Hopen.
  pose proof (getFileFormatDiff_unreadable popen indeterminate file exe Hopen)
    as Hcheck.
  split; [exact Hcheck|]. split.
  - unfold verdict_of. rewrite Hcheck. reflexivity.
  - intros fuel args settings files Hparse Hexe Hfound Hin.
    apply (check_throws_aborts fuel args settings files file Hparse Hfound Hin).
    rewrite Hexe, Hcheck. eexists. reflexivity.
Qed.

End RunTheorems.

(** ** The small run, checked

    The checks are made one after the other, on one thread. *)

Example scenario_discovery :
  listSrcFiles (Scenario.file "root")
  = Ok [Scenario.file "root/b.h"; Scenario.file "root/a.cpp"].
Proof. reflexivity. Qed.

Example scenario_run :
  Scenario.main 8 ["clang-format-hook"; "root"]
  = ([Discover "root";
      Ifstream "root/b.h"; Popen "clang-format root/b.h";
      Cout ("File " ++ quoted "root/b.h" ++ " needs formatting" ++ endl);
      Cout ("root/b.h changes when formatted." ++ endl);
      Ifstream "root/a.cpp"; Popen "clang-format root/a.cpp"],
     Returns 2%Z).
Proof. vm_compute. reflexivity. Qed.

Lemma main_exit_code_witness :
  let args := ["clang-format-hook"; "root"] in
  let files := [Scenario.file "root/b.h"; Scenario.file "root/a.cpp"] in
  result (parseSettings Glibc.getopt_long 8 args)
  = Returns (mkSettings "clang-format" ["root"])
  /\ discovered Scenario.resolve ["root"] = Ok files
  /\ exit_code_rule Scenario.popen 0%Z (Scenario.main 8 args) "clang-format" files
  /\ exit_code (Scenario.main 8 args) = Some 2%Z.
Proof.
  split; [reflexivity|]. split; [reflexivity|]. split; [|vm_compute; reflexivity].
  apply (main_exit_code Glibc.getopt_long Scenario.popen Scenario.resolve 0%Z 8
           ["clang-format-hook"; "root"] (mkSettings "clang-format" ["root"])
           [Scenario.file "root/b.h"; Scenario.file "root/a.cpp"]).
  - reflexivity.
  - reflexivity.
  - intros file [<-|[<-|[]]]; eexists; vm_compute; reflexivity.
Defined.

(** C1 as written fails on three kinds of runs.  An unknown option: nothing
    is discovered, so no discovered file produced a verdict, and the exit code
    is 1, not 0.  A file that cannot be opened beside a file that needs
    formatting: a discovered file produced a verdict, and the run ends on the
    exception, with no exit code.  A directory that cannot be listed:
    discovery throws, no file produced a verdict, and there is no exit
    code. *)
Lemma main_exit_code_counterexample :
  let bogus := Scenario.main 8 ["clang-format-hook"; "--bogus"] in
  let missing := Scenario.main 8 ["clang-format-hook"; "root/b.h"; "missing.cpp"] in
  let locked := Scenario.main 8 ["clang-format-hook"; "project"] in
  (exit_code bogus = Some 1%Z
   /\ discovered Scenario.resolve (roots (trace bogus)) = Ok []
   /\ ~ exit_code_rule Scenario.popen 0%Z bogus "clang-format" [])
  /\ (exit_code missing = None
      /\ discovered Scenario.resolve (roots (trace missing))
         = Ok [Scenario.file "root/b.h"; Scenario.file "missing.cpp"]
      /\ ~ exit_code_rule Scenario.popen 0%Z missing "clang-format"
             [Scenario.file "root/b.h"; Scenario.file "missing.cpp"])
  /\ (exit_code locked = None
      /\ (forall files,
            discovered Scenario.resolve (roots (trace locked)) <> Ok files)
      /\ ~ exit_code_rule Scenario.popen 0%Z locked "clang-format" []).
Proof.
  intros bogus missing locked.
  split; [|split]; (split; [vm_compute; reflexivity|]); split.
  - vm_compute. reflexivity.
  - intros [_ Hzero].
    assert (H : exit_code bogus = Some 0%Z) by (apply Hzero; intros file []).
    vm_compute in H. discriminate.
  - vm_compute. reflexivity.
  - intros [[_ Htwo] _].
    assert (H : exit_code missing = Some 2%Z).
    { apply Htwo. exists (Scenario.file "root/b.h"). split.
      - left. reflexivity.
      - vm_compute. discriminate. }
    vm_compute in H. discriminate.
  - intros files H. vm_compute in H. discriminate.
  - intros [_ Hzero].
    assert (H : exit_code locked = Some 0%Z) by (apply Hzero; intros file []).
    vm_compute in H. discriminate.
Qed.

Lemma argument_error_exits_1_witness :
  let args := ["clang-format-hook"; "-c"; "fmt"; "src"; "-c"] in
  let d1 := snd (Glibc.getopt_long (getopt_start args)) in
  fst (Glibc.getopt_long d1) = code ":"
  /\ exists n, forall fuel, n <= fuel ->
       stderr_of (trace (Scenario.main fuel args))
       = ("The option -c requires an argument" ++ endl)%string
       /\ stdout_of (trace (Scenario.main fuel args)) = help_text "clang-format-hook"
       /\ exit_code (Scenario.main fuel args) = Some 1%Z
       /\ roots (trace (Scenario.main fuel args)) = [].
Proof.
  intros args d1. split; [reflexivity|].
  destruct (argument_error_exits_1 Glibc.getopt_long Scenario.popen
              Scenario.resolve 0%Z args
              (fst (Glibc.getopt_long d1)) (snd (Glibc.getopt_long d1)))
    as [n Hn].
  - apply scan_last_later; [reflexivity|]. apply scan_last_here. reflexivity.
  - left. reflexivity.
  - exists n. intros fuel Hfuel.
    destruct (Hn fuel Hfuel) as [_ [Herr [Hout [Hcode [Hroots _]]]]].
    repeat split; assumption.
Defined.

(** C7 as written fails on an unknown option: the error stream receives the
    line that names the option and nothing else; the help text goes to the
    standard output. *)
Lemma usage_on_error_stream_counterexample :
  let args := ["clang-format-hook"; "--bogus"] in
  fst (Glibc.getopt_long (getopt_start args)) = code "?"
  /\ stderr_of (trace (Scenario.main 8 args)) = ("Unknown options --bogus" ++ endl)%string
  /\ stdout_of (trace (Scenario.main 8 args)) = help_text "clang-format-hook"
  /\ ~ usage_on_error_stream (Scenario.main 8 args) "clang-format-hook".
Proof.
  repeat split; try (vm_compute; reflexivity).
  intros [Hhelp _]. vm_compute in Hhelp. discriminate.
Qed.

Lemma no_inputs_exits_0_witness :
  let args := ["clang-format-hook"; "-c"; "fmt"] in
  let d1 := snd (Glibc.getopt_long (getopt_start args)) in
  (fst (Glibc.getopt_long d1) < 0)%Z
  /\ positional (snd (Glibc.getopt_long d1)) = []
  /\ exists n, forall fuel, n <= fuel -> Scenario.main fuel args = ([], Returns 0%Z).
Proof.
  intros args d1. split; [reflexivity|]. split; [reflexivity|].
  apply (no_inputs_exits_0 Glibc.getopt_long Scenario.popen Scenario.resolve 0%Z
           args (fst (Glibc.getopt_long d1)) (snd (Glibc.getopt_long d1))).
  - apply scan_last_later; [reflexivity|]. apply scan_last_here. reflexivity.
  - reflexivity.
  - reflexivity.
Defined.

Lemma launch_failure_aborts_witness :
  let args := ["clang-format-hook"; "-c"; "nofork"; "root"] in
  let files := [Scenario.file "root/b.h"; Scenario.file "root/a.cpp"] in
  read_file (Scenario.file "root/b.h") = Some Scenario.b_h
  /\ Scenario.popen (check_command "nofork" (Scenario.file "root/b.h")) = None
  /\ result (parseSettings Glibc.getopt_long 8 args)
     = Returns (mkSettings "nofork" ["root"])
  /\ discovered Scenario.resolve ["root"] = Ok files
  /\ Scenario.getFileFormatDiff (Scenario.file "root/b.h") "nofork"
     = ([Ifstream "root/b.h"; Popen "nofork root/b.h"],
        Throws "Unable to run nofork root/b.h")
  /\ (exists what, result (Scenario.main 8 args) = Throws what)
  /\ exit_code (Scenario.main 8 args) = None
  /\ (forall order, Permutation files order ->
       exists what,
         result (check_files Scenario.popen 0%Z order "nofork" false)
         = Throws what).
Proof.
  intros args files. do 4 (split; [reflexivity|]).
  destruct (launch_failure_aborts Glibc.getopt_long Scenario.popen
              Scenario.resolve 0%Z (Scenario.file "root/b.h") "nofork"
              Scenario.b_h eq_refl eq_refl)
    as [_ [Hcheck [Hrun _]]].
  split; [exact Hcheck|].
  apply (Hrun 8 args (mkSettings "nofork" ["root"]) files);
    try reflexivity.
  left. reflexivity.
Defined.

Lemma read_failure_aborts_witness :
  let args := ["clang-format-hook"; "root/b.h"; "missing.cpp"] in
  let files := [Scenario.file "root/b.h"; Scenario.file "missing.cpp"] in
  is_open (Scenario.file "missing.cpp") = false
  /\ result (parseSettings Glibc.getopt_long 8 args)
     = Returns (mkSettings "clang-format" ["root/b.h"; "missing.cpp"])
  /\ discovered Scenario.resolve ["root/b.h"; "missing.cpp"] = Ok files
  /\ Scenario.getFileFormatDiff (Scenario.file "missing.cpp") "clang-format"
     = ([Ifstream "missing.cpp"], Throws "Unable to open src file missing.cpp")
  /\ (exists what, result (Scenario.main 8 args) = Throws what)
  /\ exit_code (Scenario.main 8 args) = None
  /\ (forall order, Permutation files order ->
       exists what,
         result (check_files Scenario.popen 0%Z order "clang-format" false)
         = Throws what).
Proof.
  intros args files. do 3 (split; [reflexivity|]).
  destruct (read_failure_aborts Glibc.getopt_long Scenario.popen
              Scenario.resolve 0%Z (Scenario.file "missing.cpp") "clang-format"
              eq_refl)
    as [Hcheck [_ Hrun]].
  split; [exact Hcheck|].
  apply (Hrun 8 args (mkSettings "clang-format" ["root/b.h"; "missing.cpp"])
           files); try reflexivity.
  right. left. reflexivity.
Defined.

(** ** The scan of the command line ends

    With the model of GNU [getopt_long], the loop of [parseSettings] makes
    finitely many calls on every command line: a call that does not end the
    scan moves [optind] forward. *)

Module GlibcScan.

Import Glibc.

Lemma skip_nonoptions_bounds rest : forall i,
  (i <= skip_nonoptions rest i <= i + Z.of_nat (List.length rest))%Z.
Proof.
  induction rest as [|arg rest IH]; intros i; simpl; [lia|].
  destruct (nonoption arg); [|lia]. specialize (IH (i + 1)%Z). lia.
Qed.

Lemma argc_exchange d :
  (0 <= first_nonopt d <= last_nonopt d)%Z ->
  (last_nonopt d <= optind d <= argc d)%Z ->
  argc (exchange d) = argc d.
Proof.
  intros Hfirst Hlast. unfold argc, exchange, slice in *. simpl.
  rewrite !length_app, !length_firstn, !length_skipn. lia.
Qed.

Lemma permute_spec d :
  scanning d ->
  nextchar (permute d) = ""
  /\ argc (permute d) = argc d
  /\ (optind d <= optind (permute d) <= argc d)%Z
  /\ (0 <= first_nonopt (permute d) <= last_nonopt (permute d))%Z
  /\ last_nonopt (permute d) = optind (permute d).
Proof.
  intros [Hnext [Hoptind [Hfirst Hlast]]]. unfold permute.
  rewrite !Z.min_l by lia.
  set (d0 := set_nonopt d (first_nonopt d) (last_nonopt d)).
  assert (H0 : nextchar d0 = "" /\ argc d0 = argc d /\ optind d0 = optind d
               /\ first_nonopt d0 = first_nonopt d /\ last_nonopt d0 = last_nonopt d)
    by (repeat split; assumption).
  clearbody d0. destruct H0 as [Hn0 [Ha0 [Ho0 [Hf0 Hl0]]]].
  set (d1 := if negb (first_nonopt d0 =? last_nonopt d0)%Z
                && negb (last_nonopt d0 =? optind d0)%Z
             then exchange d0
             else if negb (last_nonopt d0 =? optind d0)%Z
                  then set_nonopt d0 (optind d0) (last_nonopt d0)
                  else d0).
  assert (H1 : nextchar d1 = "" /\ argc d1 = argc d /\ optind d1 = optind d
               /\ (0 <= first_nonopt d1 <= optind d)%Z).
  { subst d1.
    destruct (negb (first_nonopt d0 =? last_nonopt d0)%Z
              && negb (last_nonopt d0 =? optind d0)%Z).
    - rewrite argc_exchange by lia. unfold exchange. simpl.
      repeat split; try assumption; lia.
    - destruct (negb (last_nonopt d0 =? optind d0)%Z); simpl;
        repeat split; try assumption; lia. }
  clearbody d1. destruct H1 as [Hn1 [Ha1 [Ho1 Hf1]]].
  pose proof (skip_nonoptions_bounds (skipn (Z.to_nat (optind d1)) (argv d1))
                                     (optind d1)) as Hskip.
  rewrite length_skipn in Hskip. unfold argc in *. simpl.
  repeat split; try assumption; try lia.
Qed.

Lemma end_of_options_cases d :
  end_of_options d = d
  \/ optind (end_of_options d) = argc (end_of_options d).
Proof.
  unfold end_of_options.
  destruct (negb (optind d =? argc d)%Z && String.eqb (argv_at d (optind d)) "--");
    [right; reflexivity|left; reflexivity].
Qed.

Lemma consumed_moved_on d p k arg :
  argc p = argc d ->
  (optind d <= optind p)%Z ->
  (0 <= first_nonopt p <= last_nonopt p)%Z ->
  last_nonopt p = optind p ->
  (optind p < k <= argc p)%Z ->
  moved_on d (consumed p k arg).
Proof.
  intros Hargc Hoptind Hfirst Hlast Hk. unfold moved_on, scanning, argc in *.
  simpl. repeat split; lia.
Qed.

Lemma next_element_call d :
  scanning d ->
  ends_scan (fst (next_element d)) = true \/ moved_on d (snd (next_element d)).
Proof.
  intros Hscanning.
  destruct (permute_spec d Hscanning) as [Hnext [Hargc [Hoptind [Hfirst Hlast]]]].
  unfold next_element.
  destruct (end_of_options_cases (permute d)) as [->|Hend];
    [|apply Z.eqb_eq in Hend; rewrite Hend; left; reflexivity].
  set (p := permute d) in *. clearbody p.
  destruct (optind p =? argc p)%Z eqn:Hlast_element; [left; reflexivity|].
  apply Z.eqb_neq in Hlast_element.
  assert (Hmove : forall k arg, (optind p < k <= argc p)%Z ->
                                moved_on d (consumed p k arg))
    by (intros; apply consumed_moved_on; try assumption; lia).
  destruct (argv_at p (optind p)) as [|c0 [|c text]];
    try (right; apply Hmove; lia).
  destruct (Ascii.eqb c "-").
  - unfold process_long_option.
    destruct (String.prefix (long_name text) "clang-format"); [|left; reflexivity].
    destruct (long_value text) as [value|]; [right; apply Hmove; lia|].
    destruct (optind p + 1 <? argc p)%Z eqn:Hvalue; [|left; reflexivity].
    apply Z.ltb_lt in Hvalue. right. apply Hmove. lia.
  - unfold short_option.
    destruct (Ascii.eqb c "c"); [|left; reflexivity].
    destruct (String.eqb text ""); simpl.
    + destruct (optind p + 1 =? argc p)%Z eqn:Hvalue; [left; reflexivity|].
      apply Z.eqb_neq in Hvalue. right. apply Hmove. lia.
    + right. apply Hmove. lia.
Qed.

Lemma getopt_long_call d :
  scanning d ->
  ends_scan (fst (getopt_long d)) = true \/ moved_on d (snd (getopt_long d)).
Proof.
  intros [Hnext Hrest].
  set (d0 := mkGetopt (argv d) (optind d) "" (nextchar d)
                      (first_nonopt d) (last_nonopt d)).
  assert (Hcall : getopt_long d = next_element d0).
  { unfold getopt_long. fold d0.
    change (argv d0) with (argv d). change (nextchar d0) with (nextchar d).
    rewrite Hnext. destruct (argv d) eqn:Hargv; [|reflexivity].
    unfold argc in Hrest. rewrite Hargv in Hrest. simpl in Hrest. lia. }
  rewrite Hcall.
  destruct (next_element_call d0) as [Hends|Hmoved].
  - split; [exact Hnext|exact Hrest].
  - left. exact Hends.
  - right. exact Hmoved.
Qed.

(** The scan ends, from any state between two calls. *)
Lemma scan_ends_from (n : nat) : forall d,
  scanning d ->
  (argc d - optind d <= Z.of_nat n)%Z ->
  exists o d', scan_last getopt_long d o d'.
Proof.
  induction n as [|n IH]; intros d Hscanning Hn;
    destruct (getopt_long_call d Hscanning) as [Hends|[Hnext [Hmoved Hargc]]];
    try (eexists; eexists; apply scan_last_here; assumption).
  - destruct Hnext as [_ [Hoptind _]]. lia.
  - destruct (ends_scan (fst (getopt_long d))) eqn:Hends;
      [eexists; eexists; apply scan_last_here; assumption|].
    destruct (IH (snd (getopt_long d)) Hnext) as [o [d' Hscan]]; [lia|].
    exists o, d'. apply scan_last_later; assumption.
Qed.

(** On every command line the scan of the options ends: with an error, or
    with the options read and [optind] on the first input. *)
Theorem scan_ends (args : list string) :
  exists o d', scan_last getopt_long (getopt_start args) o d'.
Proof.
  destruct args as [|exe_name args].
  - eexists. eexists. apply scan_last_here. reflexivity.
  - assert (Hargc : argc (getopt_start (exe_name :: args))
                    = (1 + Z.of_nat (List.length args))%Z)
      by (unfold argc, getopt_start; cbn [argv List.length]; lia).
    apply (scan_ends_from (List.length args)).
    + unfold scanning. rewrite Hargc. unfold getopt_start.
      cbn [nextchar optind first_nonopt last_nonopt]. repeat split; lia.
    + rewrite Hargc. unfold getopt_start. cbn [optind]. lia.
Qed.

(** So a run always ends: [main] returns 0 or 2, or [exit(1)] is called, or
    an exception leaves [main]. *)
Theorem main_ends (popen : string -> option (string * Z))
    (resolve : string -> fsnode) (indeterminate : Z) (args : list string) :
  exists n, forall fuel, n <= fuel ->
    let run := main getopt_long popen resolve indeterminate fuel args in
    result run = Returns 0%Z \/ result run = Returns 2%Z
    \/ result run = Exits 1%Z \/ exists what, result run = Throws what.
Proof.
  destruct (scan_ends args) as [o [d' Hscan]].
  destruct (parseSettings_scan _ _ _ _ Hscan) as [n Hn]. exists n.
  intros fuel Hfuel run. subst run. destruct (Hn fuel Hfuel) as [exe Hparse].
  destruct (o <? 0)%Z.
  - assert (Hreturns : result (parseSettings getopt_long fuel args)
                       = Returns (mkSettings exe (positional d')))
      by (rewrite Hparse; reflexivity).
    destruct (discovered resolve (positional d')) as [files|what] eqn:Hfound.
    + rewrite (main_after_parse _ popen resolve indeterminate fuel args
                 (mkSettings exe (positional d')) files Hreturns Hfound).
      cbv zeta.
      destruct (check_files_result popen indeterminate files
                  (clang_format_exe (mkSettings exe (positional d'))) false)
        as [[[|] Hb]|[what Hw]]; unfold result in *; cbn [snd] in *.
      * rewrite Hb. auto.
      * rewrite Hb. auto.
      * rewrite Hw. right. right. right. eexists. reflexivity.
    + destruct (main_discovery_throws _ popen resolve indeterminate fuel args
                  (mkSettings exe (positional d')) what Hreturns Hfound)
        as [before [p [after [_ [_ Hrun]]]]].
      rewrite Hrun. right. right. right. eexists. reflexivity.
  - apply main_after_error with (popen := popen) (resolve := resolve)
      (indeterminate := indeterminate) in Hparse.
    rewrite Hparse. auto.
Qed.

End GlibcScan.

(** ** The parallel loop *)

Section ParallelProperties.

Variable tasks : list (path * option string).

(** An iteration has no shared step, or the five steps of a verdict. *)
Lemma program_shape i :
  program tasks i = []
  \/ exists line1 line2,
       program tasks i = [SetFlag; Lock; Write line1; Write line2; Unlock].
Proof.
  unfold program. destruct (nth_error tasks i) as [[input [d|]]|]; auto.
  right. eexists. eexists. reflexivity.
Qed.

Lemma program_verdict i :
  program tasks i <> []
  <-> exists input d, nth_error tasks i = Some (input, Some d).
Proof.
  unfold program. destruct (nth_error tasks i) as [[input [d|]]|]; simpl; split;
    try congruence; try (intros [x [y H]]; congruence).
  intros _. eauto.
Qed.

Lemma invariant_start : invariant tasks start.
Proof.
  split.
  - intros i. unfold inside. simpl. split; [discriminate|lia].
  - unfold started. simpl. split; [discriminate|]. intros [i [_ H]]. lia.
Qed.

Lemma pc_advance_same s i : advance s i i = S (pc s i).
Proof. unfold advance. rewrite Nat.eqb_refl. reflexivity. Qed.

Lemma pc_advance_other s i j : j <> i -> advance s i j = pc s j.
Proof. intros H. unfold advance. apply Nat.eqb_neq in H. rewrite H. reflexivity. Qed.

Ltac split_on_iteration j i :=
  destruct (Nat.eq_dec j i) as [->|?];
  [rewrite ?pc_advance_same in *|rewrite ?pc_advance_other in * by assumption].

Lemma step_invariant i s s' :
  invariant tasks s -> step tasks i s = Some s' -> invariant tasks s'.
Proof.
  intros [Hmutex Hflag] Hstep. unfold step, next_action in Hstep.
  destruct (program_shape i) as [Hprog|[line1 [line2 Hprog]]];
    rewrite Hprog in Hstep.
  { destruct (pc s i); discriminate. }
  assert (Hne : program tasks i <> []) by (rewrite Hprog; discriminate).
  pose proof (Hmutex i) as Hi. unfold inside in Hi.
  destruct (pc s i) as [|[|[|[|[|k]]]]] eqn:Hpc; simpl in Hstep;
    try (destruct k; discriminate).
  - (* the store to the flag *)
    injection Hstep as <-. split; simpl.
    + intros j. rewrite Hmutex. unfold inside. simpl.
      split_on_iteration j i; [|reflexivity]. lia.
    + split; [|reflexivity]. intros _. exists i. unfold started. simpl.
      rewrite pc_advance_same. split; [assumption|lia].
  - (* the mutex is taken *)
    destruct (output_mutex s) as [holder|] eqn:Hholder; [discriminate|].
    injection Hstep as <-. split; simpl.
    + intros j. unfold inside. simpl. split_on_iteration j i.
      * split; [intros _; split; [assumption|lia]|reflexivity].
      * pose proof (Hmutex j) as Hj. unfold inside in Hj.
        split; [congruence|]. intros Hin. apply Hj in Hin. discriminate.
    + rewrite Hflag. unfold started. simpl.
      split; intros [j Hj]; exists j; split_on_iteration j i; intuition lia.
  - (* the first line *)
    injection Hstep as <-. split; simpl.
    + intros j. rewrite Hmutex. unfold inside. simpl.
      split_on_iteration j i; [|reflexivity]. intuition lia.
    + rewrite Hflag. unfold started. simpl.
      split; intros [j Hj]; exists j; split_on_iteration j i; intuition lia.
  - (* the second line *)
    injection Hstep as <-. split; simpl.
    + intros j. rewrite Hmutex. unfold inside. simpl.
      split_on_iteration j i; [|reflexivity]. intuition lia.
    + rewrite Hflag. unfold started. simpl.
      split; intros [j Hj]; exists j; split_on_iteration j i; intuition lia.
  - (* the mutex is released *)
    injection Hstep as <-.
    assert (Hheld : output_mutex s = Some i) by (apply Hi; split; [assumption|lia]).
    split; simpl.
    + intros j. unfold inside. simpl. split; [discriminate|].
      split_on_iteration j i; [lia|].
      intros Hin. apply Hmutex in Hin. congruence.
    + rewrite Hflag. unfold started. simpl.
      split; intros [j Hj]; exists j; split_on_iteration j i; intuition lia.
Qed.

Lemma run_schedule_invariant schedule : forall s s',
  invariant tasks s -> run_schedule tasks schedule s = Some s' -> invariant tasks s'.
Proof.
  induction schedule as [|i schedule IH]; intros s s' Hinv Hrun; simpl in Hrun.
  - injection Hrun as <-. assumption.
  - destruct (step tasks i s) as [s1|] eqn:Hstep; [|discriminate].
    eapply IH; [|eassumption]. eapply step_invariant; eassumption.
Qed.

Lemma next_action_write s i text :
  next_action tasks s i = Some (Write text) ->
  program tasks i <> [] /\ 2 <= pc s i <= 4.
Proof.
  unfold next_action.
  destruct (program_shape i) as [Hprog|[line1 [line2 Hprog]]]; rewrite Hprog.
  - destruct (pc s i); discriminate.
  - destruct (pc s i) as [|[|[|[|[|k]]]]]; simpl;
      try discriminate; try (destruct k; discriminate);
      intros _; (split; [discriminate|lia]).
Qed.

Lemma next_action_set_flag s i :
  next_action tasks s i = Some SetFlag -> pc s i = 0.
Proof.
  unfold next_action.
  destruct (program_shape i) as [Hprog|[line1 [line2 Hprog]]]; rewrite Hprog.
  - destruct (pc s i); discriminate.
  - destruct (pc s i) as [|[|[|[|[|k]]]]]; simpl;
      try discriminate; try (destruct k; discriminate). reflexivity.
Qed.

Lemma complete_started s i :
  complete tasks s -> program tasks i <> [] -> started tasks s i.
Proof.
  intros Hcomplete Hne. split; [assumption|].
  specialize (Hcomplete i). unfold next_action in Hcomplete.
  destruct (program_shape i) as [Hprog|[line1 [line2 Hprog]]]; [contradiction|].
  rewrite Hprog in Hcomplete. destruct (pc s i); [discriminate|lia].
Qed.

Lemma some_verdict :
  existsb (fun task => match snd task with Some _ => true | None => false end) tasks
  = true
  <-> exists i, program tasks i <> [].
Proof.
  rewrite existsb_exists. split.
  - intros [[input diff] [Hin Hdiff]]. simpl in Hdiff.
    destruct diff as [d|]; [|discriminate].
    apply In_nth_error in Hin. destruct Hin as [i Hi].
    exists i. apply program_verdict. eauto.
  - intros [i Hi]. apply program_verdict in Hi. destruct Hi as [input [d Hi]].
    exists (input, Some d). split; [|reflexivity].
    eapply nth_error_In. eassumption.
Qed.

(** In a state an interleaving reaches, an iteration that is about to write
    holds the mutex, and an iteration that is about to store to the flag does
    not. *)
Lemma write_holds_mutex s i text :
  invariant tasks s -> next_action tasks s i = Some (Write text) ->
  output_mutex s = Some i.
Proof.
  intros [Hmutex _] Hnext. apply Hmutex. eapply next_action_write. eassumption.
Qed.

Lemma set_flag_without_mutex s i :
  invariant tasks s -> next_action tasks s i = Some SetFlag ->
  output_mutex s <> Some i.
Proof.
  intros [Hmutex _] Hnext Hheld. apply Hmutex in Hheld. destruct Hheld as [_ Hpc].
  apply next_action_set_flag in Hnext. lia.
Qed.

(** After the barrier the flag tells whether some check gave a verdict. *)
Lemma complete_flag s :
  invariant tasks s -> complete tasks s ->
  inputs_need_formatting s
  = existsb (fun task => match snd task with Some _ => true | None => false end)
            tasks.
Proof.
  intros [_ Hflag] Hcomplete.
  destruct (existsb _ tasks) eqn:Hex.
  - apply Hflag. apply some_verdict in Hex. destruct Hex as [i Hi].
    exists i. apply complete_started; assumption.
  - destruct (inputs_need_formatting s) eqn:Hneed; [|reflexivity].
    assert (Hstarted : exists i, started tasks s i) by (apply Hflag; reflexivity).
    destruct Hstarted as [i [Hne _]].
    assert (Hsome : exists i, program tasks i <> []) by eauto.
    apply some_verdict in Hsome. congruence.
Qed.

(** No interleaving blocks: while an iteration has a step left, some
    iteration can make a step. *)
Lemma no_deadlock s i :
  invariant tasks s -> next_action tasks s i <> None ->
  exists j s', step tasks j s = Some s'.
Proof.
  intros [Hmutex _] Hnext.
  destruct (output_mutex s) as [holder|] eqn:Hholder.
  - exists holder. pose proof (proj1 (Hmutex holder) eq_refl) as [Hne Hpc].
    unfold step, next_action.
    destruct (program_shape holder) as [Hprog|[line1 [line2 Hprog]]];
      [contradiction|].
    rewrite Hprog.
    destruct (pc s holder) as [|[|[|[|[|k]]]]]; try lia; simpl; eauto.
  - exists i. unfold step. destruct (next_action tasks s i) as [[| |text|]|];
      [eauto|rewrite Hholder; eauto|eauto|eauto|congruence].
Qed.

(** *** The loop reaches its barrier *)

Lemma step_advances i s s' :
  step tasks i s = Some s' ->
  pc s' = advance s i /\ pc s i < List.length (program tasks i).
Proof.
  unfold step. destruct (next_action tasks s i) as [a|] eqn:Hnext; [|discriminate].
  assert (Hlt : pc s i < List.length (program tasks i))
    by (apply nth_error_Some; unfold next_action in Hnext; congruence).
  destruct a as [| |text|]; try destruct (output_mutex s); try discriminate;
    intros H; injection H as <-; auto.
Qed.

Lemma program_beyond i : List.length tasks <= i -> program tasks i = [].
Proof.
  intros H. unfold program. apply nth_error_None in H. rewrite H. reflexivity.
Qed.

Lemma list_sum_decreases (f g : nat -> nat) (l : list nat) (i : nat) :
  NoDup l -> In i l ->
  (forall j, j <> i -> f j = g j) -> f i < g i ->
  list_sum (map f l) < list_sum (map g l).
Proof.
  intros Hnodup Hin Hsame Hless.
  induction l as [|j l IH]; [contradiction|].
  inversion Hnodup as [|? ? Hnotin Hnodup']; subst. simpl.
  destruct Hin as [->|Hin].
  - assert (Heq : map f l = map g l).
    { apply map_ext_in. intros k Hk. apply Hsame. intros ->. contradiction. }
    rewrite Heq. lia.
  - rewrite (Hsame j) by (intros ->; contradiction).
    specialize (IH Hnodup' Hin). lia.
Qed.

Lemma step_remaining i s s' :
  step tasks i s = Some s' -> remaining tasks s' < remaining tasks s.
Proof.
  intros Hstep. apply step_advances in Hstep. destruct Hstep as [Hpc Hlt].
  assert (Hi : i < List.length tasks).
  { destruct (Nat.lt_ge_cases i (List.length tasks)) as [H|H]; [assumption|].
    rewrite (program_beyond i H) in Hlt. simpl in Hlt. lia. }
  unfold remaining. apply list_sum_decreases with (i := i).
  - apply seq_NoDup.
  - apply in_seq. lia.
  - intros j Hj. rewrite Hpc, pc_advance_other by assumption. reflexivity.
  - rewrite Hpc, pc_advance_same. lia.
Qed.

Lemma nothing_remaining s :
  existsb (fun i => Nat.ltb (pc s i) (List.length (program tasks i)))
          (seq 0 (List.length tasks)) = false ->
  complete tasks s.
Proof.
  intros Hnone i. unfold next_action. apply nth_error_None.
  destruct (Nat.lt_ge_cases i (List.length tasks)) as [Hi|Hi].
  - destruct (Nat.ltb_spec (pc s i) (List.length (program tasks i))) as [Hlt|Hge];
      [|assumption].
    assert (Hex : existsb (fun i => Nat.ltb (pc s i) (List.length (program tasks i)))
                          (seq 0 (List.length tasks)) = true).
    { apply existsb_exists. exists i. split; [apply in_seq; lia|].
      apply Nat.ltb_lt. assumption. }
    congruence.
  - rewrite (program_beyond i Hi). simpl. lia.
Qed.

(** From a state an interleaving reaches, the iterations can always be run
    to the end, whatever was scheduled before. *)
Lemma can_complete m : forall s,
  invariant tasks s -> remaining tasks s <= m ->
  exists schedule s', run_schedule tasks schedule s = Some s' /\ complete tasks s'.
Proof.
  induction m as [|m IH]; intros s Hinv Hm;
    destruct (existsb (fun i => Nat.ltb (pc s i) (List.length (program tasks i)))
                      (seq 0 (List.length tasks))) eqn:Hex;
    try (exists [], s; split; [reflexivity|apply nothing_remaining; assumption]);
    apply existsb_exists in Hex; destruct Hex as [i [_ Hlt]];
    apply Nat.ltb_lt in Hlt;
    assert (Hnext : next_action tasks s i <> None)
      by (unfold next_action; apply nth_error_Some; assumption);
    destruct (no_deadlock s i Hinv Hnext) as [j [s1 Hstep]];
    pose proof (step_remaining _ _ _ Hstep) as Hless.
  - lia.
  - destruct (IH s1) as [schedule [s' [Hrun Hcomplete]]];
      [eapply step_invariant; eassumption|lia|].
    exists (j :: schedule), s'. split; [|assumption].
    simpl. rewrite Hstep. assumption.
Qed.

(** C9, amended. In every interleaving of the iterations: an iteration
    writes its verdict on the stream only while it holds [output_mutex]; its
    store to the flag is made before it takes the mutex, not inside the
    region; the loop can always be run to its barrier; and once all
    iterations are complete the flag is [true] exactly when some check gave a
    verdict. *)
Theorem parallel_loop_flag (schedule : list nat) (s : shared) :
  run_schedule tasks schedule start = Some s ->
  (forall i text, next_action tasks s i = Some (Write text) ->
                  output_mutex s = Some i)
  /\ (forall i, next_action tasks s i = Some SetFlag -> output_mutex s <> Some i)
  /\ (exists schedule' s',
        run_schedule tasks schedule' s = Some s' /\ complete tasks s')
  /\ (complete tasks s ->
      inputs_need_formatting s
      = existsb (fun task => match snd task with Some _ => true | None => false end)
                tasks).
Proof.
  intros Hrun.
  pose proof (run_schedule_invariant _ _ _ invariant_start Hrun) as Hinv.
  split; [|split; [|split]].
  - intros i text. apply write_holds_mutex. assumption.
  - intros i. apply set_flag_without_mutex. assumption.
  - apply (can_complete (remaining tasks s)); [assumption|lia].
  - apply complete_flag. assumption.
Qed.

End ParallelProperties.

Lemma existsb_map {A B} (f : A -> B) (p : B -> bool) (l : list A) :
  existsb p (map f l) = existsb (fun a => p (f a)) l.
Proof. induction l as [|a l IH]; simpl; [|rewrite IH]; reflexivity. Qed.

(** X16. When every check returns, the parallel loop, however its
    iterations interleave, leaves at its barrier the flag that the loop on one
    thread returns: the exit code does not depend on the schedule. *)
Lemma parallel_flag_is_sequential_flag
    (popen : string -> option (string * Z)) (indeterminate : Z)
    (exe : string) (files : list path) (schedule : list nat) (s : shared) :
  (forall file, In file files -> check_returns popen indeterminate exe file) ->
  run_schedule (tasks_of popen indeterminate exe files) schedule start = Some s ->
  complete (tasks_of popen indeterminate exe files) s ->
  result (check_files popen indeterminate files exe false)
  = Returns (inputs_need_formatting s).
Proof.
  intros Hall Hrun Hcomplete.
  rewrite (check_files_returns _ _ _ _ _ Hall). simpl. f_equal.
  rewrite (complete_flag _ s
             (run_schedule_invariant _ _ _ _ (invariant_start _) Hrun) Hcomplete).
  unfold tasks_of. rewrite existsb_map. reflexivity.
Qed.

Lemma parallel_loop_flag_witness :
  let schedule := [0; 2; 2; 2; 2; 2; 0; 0; 0; 0] in
  exists s,
    run_schedule scenario_tasks schedule start = Some s
    /\ complete scenario_tasks s
    /\ inputs_need_formatting s = true
    /\ cout s
       = [("File " ++ quoted "root/c.txt" ++ " needs formatting" ++ endl)%string;
          ("Got return code 256 when executing clang-format root/c.txt" ++ endl)%string;
          ("File " ++ quoted "root/b.h" ++ " needs formatting" ++ endl)%string;
          ("root/b.h changes when formatted." ++ endl)%string].
Proof.
  intros schedule.
  destruct (run_schedule scenario_tasks schedule start) as [s|] eqn:Hrun;
    [|vm_compute in Hrun; discriminate].
  exists s. split; [reflexivity|].
  assert (Hcomplete : complete scenario_tasks s).
  { vm_compute in Hrun. injection Hrun as <-.
    intros [|[|[|i]]]; try reflexivity.
    unfold next_action. simpl. destruct i; reflexivity. }
  split; [assumption|].
  destruct (parallel_loop_flag scenario_tasks schedule s Hrun) as [_ [_ [_ Hflag]]].
  split; [rewrite Hflag by assumption; reflexivity|].
  vm_compute in Hrun. injection Hrun as <-. reflexivity.
Defined.

(** C9 as written fails on a run with one file that needs formatting: the
    iteration makes its store to the flag while nobody holds the mutex. *)
Lemma flag_and_stream_guarded_counterexample :
  next_action scenario_tasks start 0 = Some SetFlag
  /\ output_mutex start = None
  /\ ~ (forall schedule s,
          run_schedule scenario_tasks schedule start = Some s ->
          flag_and_stream_guarded scenario_tasks s).
Proof.
  split; [reflexivity|]. split; [reflexivity|].
  intros Hguarded.
  specialize (Hguarded [] start eq_refl 0 SetFlag eq_refl (or_introl eq_refl)).
  discriminate.
Qed.

(** * More on the code

    ** File discovery: order, multiplicity and failure *)

(** X1. The work-list loop gives the discovery of each pending path, from
    the back of [to_process] to its front, one after the other: when all of
    them return it returns what it had already found, unchanged, followed by
    what they found, in that order; when one of them throws it throws the
    same exception, and the paths after it are not looked at. *)
Theorem listSrcFiles_loop_pending (to_process src_files : list path) :
  listSrcFiles_loop to_process src_files
  = match flat_map_ok listSrcFiles to_process with
    | Ok files => Ok (src_files ++ files)
    | filesystem_error what => filesystem_error what
    end.
Proof. apply (listSrcFiles_loop_flat_map _ _ _ (le_n _)). Qed.

(** X2. Discovery of one root, case by case.  When the status of the root
    cannot be read, or the root is a directory that cannot be listed,
    discovery throws the error of that call.  A directory that can be listed
    gives the discoveries of its entries one after the other, the last entry
    first, up to the first that throws.  Anything else whose status can be
    read, a path that does not exist too, gives itself when its extension is
    [.cpp] or [.h] and nothing otherwise. *)
Theorem listSrcFiles_unfold (root : path) :
  listSrcFiles root
  = match is_directory root with
    | filesystem_error what => filesystem_error what
    | Ok true =>
        match directory_iterator root with
        | filesystem_error what => filesystem_error what
        | Ok children => flat_map_ok listSrcFiles (rev children)
        end
    | Ok false =>
        Ok (if has_extension root && allowed_extension (extension root)
            then [root] else [])
    end.
Proof. apply listSrcFiles_cases. Qed.

(** X18. Discovery returns exactly when the status of every path under the
    root can be read and every directory under it can be listed: one path
    that fails anywhere under the root makes the whole discovery throw, and
    nothing found elsewhere is returned. *)
Theorem listSrcFiles_returns_iff (root : path) :
  (exists files, listSrcFiles root = Ok files)
  <-> (forall p, reachable root p -> accessible p).
Proof.
  destruct (listSrcFiles_spec _ root (le_n _)) as [Hsound Hreturns].
  split; [|exact Hreturns].
  intros [files Hfiles]. apply (Hsound files Hfiles).
Qed.

(** ** The external tool runner: what is captured *)

Lemma string_append_assoc s1 s2 s3 :
  ((s1 ++ s2) ++ s3 = s1 ++ (s2 ++ s3))%string.
Proof. induction s1 as [|c s1 IH]; simpl; [|rewrite IH]; reflexivity. Qed.

Lemma read_pipe_turn stream output :
  read_pipe stream output
  = match fgets 1024 stream with
    | None => output
    | Some (buffer, rest) => read_pipe rest (output ++ c_str buffer)
    end.
Proof.
  rewrite read_pipe_equation_1.
  generalize (inspect (fgets 1024 stream)). intros [r Hr].
  destruct r as [[buffer rest]|];
    cbv beta iota delta [read_pipe_unfold_clause_1]; rewrite Hr; reflexivity.
Qed.

Lemma fgets_bytes_split n : forall stream,
  (fst (fgets_bytes n stream) ++ snd (fgets_bytes n stream))%string = stream.
Proof.
  induction n as [|n IH]; intros [|c stream]; try reflexivity.
  cbn [fgets_bytes]. destruct (Ascii.eqb c LF); [reflexivity|].
  specialize (IH stream). destruct (fgets_bytes n stream) as [buffer rest].
  simpl in *. rewrite IH. reflexivity.
Qed.

Lemma fgets_split size stream buffer rest :
  fgets size stream = Some (buffer, rest) -> (buffer ++ rest)%string = stream.
Proof.
  intros Hget. pose proof (fgets_bytes_split (size - 1) stream) as Hsplit.
  destruct stream as [|c stream]; [discriminate|].
  unfold fgets in Hget.
  assert (Hb : fgets_bytes (size - 1) (String c stream) = (buffer, rest))
    by congruence.
  rewrite Hb in Hsplit. exact Hsplit.
Qed.

Lemma c_str_is_nul_free s : nul_free (c_str s) = true.
Proof.
  induction s as [|c s IH]; [reflexivity|]. simpl.
  destruct (Ascii.eqb c NUL) eqn:Hc; [reflexivity|]. simpl. rewrite Hc, IH.
  reflexivity.
Qed.

(** By induction on the bytes still in the pipe. *)
Lemma read_pipe_measure (n : nat) : forall stream output,
  String.length stream <= n ->
  (nul_free output = true -> nul_free (read_pipe stream output) = true)
  /\ (nul_free stream = true -> read_pipe stream output = (output ++ stream)%string).
Proof.
  induction n as [|n IH]; intros stream output Hlen;
    rewrite read_pipe_turn;
    destruct (fgets 1024 stream) as [[buffer rest]|] eqn:Hget;
    try (destruct stream; [|discriminate]; split; intros;
         [assumption|symmetry; apply append_empty_r]).
  - apply fgets_consumes in Hget; [lia|lia].
  - pose proof (fgets_consumes 1024 stream buffer rest) as Hless.
    destruct (IH rest (output ++ c_str buffer)%string) as [IHfree IHwhole];
      [specialize (Hless ltac:(lia) Hget); lia|].
    split.
    + intros Hout. apply IHfree.
      rewrite nul_free_append, Hout, c_str_is_nul_free. reflexivity.
    + intros Hstream.
      pose proof (fgets_split _ _ _ _ Hget) as Hsplit.
      rewrite <- Hsplit, nul_free_append in Hstream.
      apply andb_true_iff in Hstream. destruct Hstream as [Hbuffer Hrest].
      rewrite IHwhole by assumption.
      rewrite c_str_nul_free by assumption.
      rewrite <- Hsplit. apply string_append_assoc.
Qed.

(** X3. When the process writes no NUL byte, the [fgets] loop captures
    everything it wrote, whatever the lengths of its lines (a line longer
    than the buffer comes in several pieces and is put together again). *)
Theorem read_pipe_captures_all (stream : string) :
  nul_free stream = true -> read_pipe stream "" = stream.
Proof.
  intros Hfree.
  destruct (read_pipe_measure (String.length stream) stream "") as [_ Hwhole];
    [lia|].
  rewrite Hwhole by assumption. reflexivity.
Qed.

Lemma read_pipe_captures_all_witness :
  let stream := (string_of_list_ascii (repeat "x"%char 2500)
                 ++ endl ++ "last line, not ended")%string in
  nul_free stream = true /\ read_pipe stream "" = stream.
Proof.
  intros stream. split; [vm_compute; reflexivity|].
  apply (read_pipe_captures_all stream). vm_compute. reflexivity.
Defined.

(** X4. What is captured never holds a NUL byte: [res.output += buffer]
    appends each piece as a C string. *)
Theorem read_pipe_never_holds_nul (stream : string) :
  nul_free (read_pipe stream "") = true.
Proof.
  destruct (read_pipe_measure (String.length stream) stream "") as [Hfree _];
    [lia|].
  apply Hfree. reflexivity.
Qed.

(** X5. A file that holds a NUL byte is reported as changing when
    formatted whenever the formatter ends with status 0, whatever the
    formatter printed, its own bytes too. *)
Theorem getFileFormatDiff_file_with_nul
    (popen : string -> option (string * Z)) (indeterminate : Z)
    (file : path) (exe contents stream : string) :
  read_file file = Some contents ->
  nul_free contents = false ->
  popen (check_command exe file) = Some (stream, 0%Z) ->
  result (getFileFormatDiff popen indeterminate file exe)
  = Returns (Some (c_str (native file) ++ " changes when formatted.")%string).
Proof.
  intros Hread Hnul Hpopen.
  rewrite (getFileFormatDiff_launched _ _ _ _ _ _ _ Hread Hpopen). simpl.
  destruct (String.eqb_spec contents (read_pipe stream "")) as [Heq|Hneq];
    [|reflexivity].
  destruct (read_pipe_measure (String.length stream) stream "") as [Hfree _];
    [lia|].
  rewrite Heq, (Hfree eq_refl) in Hnul. discriminate.
Qed.

Lemma getFileFormatDiff_file_with_nul_witness :
  let contents := ("int x;" ++ String NUL "" ++ endl)%string in
  let file := mkPath "x.cpp" (NonDirectory (Some contents)) in
  read_file file = Some contents
  /\ nul_free contents = false
  /\ printing_popen contents (check_command "clang-format" file)
     = Some (contents, 0%Z)
  /\ result (getFileFormatDiff (printing_popen contents) 0%Z file "clang-format")
     = Returns (Some "x.cpp changes when formatted.").
Proof.
  intros contents file. do 3 (split; [reflexivity|]).
  apply (getFileFormatDiff_file_with_nul (printing_popen contents) 0%Z file
           "clang-format" contents contents); reflexivity.
Defined.

(** ** The external tool runner: the command line *)

Lemma concat_cons_more sep x y l :
  String.concat sep (x :: y :: l)
  = (x ++ sep ++ String.concat sep (y :: l))%string.
Proof. reflexivity. Qed.

Lemma concat_space_inside pre a b post :
  String.concat " " (pre ++ (a ++ " " ++ b)%string :: post)
  = String.concat " " (pre ++ a :: b :: post).
Proof.
  induction pre as [|x pre IH].
  - cbn [app]. destruct post as [|p post].
    + reflexivity.
    + rewrite !concat_cons_more. rewrite !string_append_assoc. reflexivity.
  - cbn [app]. destruct pre as [|y pre].
    + cbn [app] in *. rewrite (concat_cons_more " " x a), concat_cons_more, IH.
      reflexivity.
    + cbn [app] in *. rewrite !(concat_cons_more " " x y), IH. reflexivity.
Qed.

(** X6. Nothing is quoted: a token that holds a space gives the same
    command, and so the same process and the same result, as the two tokens
    on either side of the space. *)
Theorem runCmdForOutput_splits_on_spaces
    (popen : string -> option (string * Z)) (indeterminate : Z)
    (pre post : list string) (a b : string) :
  runCmdForOutput popen indeterminate (pre ++ (a ++ " " ++ b)%string :: post)
  = runCmdForOutput popen indeterminate (pre ++ a :: b :: post).
Proof.
  rewrite !runCmdForOutput_unfold by (destruct pre; discriminate).
  rewrite concat_space_inside. reflexivity.
Qed.

Lemma fill_cmd_offset args : forall n i prefix k,
  i + List.length args = n ->
  joined_length args <= k ->
  snd (fill_cmd n i args (prefix ++ repeat NUL k) (List.length prefix))
  = List.length prefix + joined_length args.
Proof.
  induction args as [|arg args IH]; intros n i prefix k Hn Hk.
  - simpl. unfold joined_length. simpl. lia.
  - cbn [fill_cmd].
    pose proof (length_list_ascii_of_string arg) as Harg.
    rewrite joined_length_cons in *.
    rewrite memcpy_fresh by (destruct args; lia).
    destruct args as [|arg' args'].
    + replace (Nat.ltb (i + 1) n) with false
        by (symmetry; apply Nat.ltb_ge; simpl in Hn; lia).
      cbn [fill_cmd snd]. lia.
    + replace (Nat.ltb (i + 1) n) with true
        by (symmetry; apply Nat.ltb_lt; simpl in Hn; lia).
      replace (List.length prefix + String.length arg)
        with (List.length (prefix ++ list_ascii_of_string arg))
        by (rewrite length_app, Harg; reflexivity).
      rewrite app_assoc, store_fresh by lia.
      rewrite app_cons_last.
      replace (S (List.length (prefix ++ list_ascii_of_string arg)))
        with (List.length ((prefix ++ list_ascii_of_string arg) ++ [" "%char]))
        by (rewrite (length_app _ [" "%char]); simpl; lia).
      rewrite (IH n (S i)) by (simpl in *; lia).
      rewrite !length_app, Harg. simpl. lia.
Qed.

Lemma string_length_append s1 s2 :
  String.length (s1 ++ s2) = String.length s1 + String.length s2.
Proof. induction s1 as [|c s1 IH]; simpl; [|rewrite IH]; reflexivity. Qed.

Lemma length_concat_space args :
  String.length (String.concat " " args) = joined_length args.
Proof.
  induction args as [|arg args IH]; [reflexivity|].
  rewrite joined_length_cons. destruct args as [|arg' args'].
  - simpl. lia.
  - rewrite concat_cons_more, !string_length_append, IH. simpl. lia.
Qed.

(** X7. For a non-empty sequence of tokens the loop fills the vector [cmd]
    up to its last byte and not further: [cmd_offset] ends at [cmd_size],
    one below the size of the vector, which keeps its size. *)
Theorem build_cmd_fills_vector (args : list string) :
  args <> [] ->
  let cmd := repeat NUL (cmd_size args + 1) in
  snd (fill_cmd (List.length args) 0 args cmd 0) = cmd_size args
  /\ List.length (fst (fill_cmd (List.length args) 0 args cmd 0))
     = cmd_size args + 1
  /\ List.length (build_cmd args) = cmd_size args + 1.
Proof.
  intros Hne cmd. subst cmd.
  pose proof (fill_cmd_offset args (List.length args) 0 [] (cmd_size args + 1))
    as Hoffset.
  pose proof (fill_cmd_joined args (List.length args) 0 [] (cmd_size args + 1))
    as Hcmd.
  pose proof (length_concat_space args) as Hlen.
  rewrite <- length_list_ascii_of_string in Hlen.
  simpl in Hoffset, Hcmd. rewrite cmd_size_joined in *.
  split; [apply Hoffset; lia|]. split.
  - rewrite Hcmd by lia. rewrite length_app, repeat_length. lia.
  - rewrite build_cmd_joined by assumption. rewrite length_app. simpl. lia.
Qed.

Lemma build_cmd_fills_vector_witness :
  let args := ["clang-format"; "root/a.cpp"] in
  args <> []
  /\ snd (fill_cmd 2 0 args (repeat NUL 24) 0) = 23
  /\ List.length (build_cmd args) = 24.
Proof.
  intros args. split; [discriminate|].
  destruct (build_cmd_fills_vector args) as [Hoffset [_ Hlen]]; [discriminate|].
  split; [exact Hoffset|exact Hlen].
Defined.

(** ** [parseSettings]: outcomes and the options read *)

Lemma positional_skipn d :
  (0 <= optind d)%Z ->
  positional d = skipn (Z.to_nat (optind d)) (argv d).
Proof.
  intros Hoptind. unfold positional, argc.
  replace (Z.to_nat (Z.of_nat (List.length (argv d)) - optind d))
    with (List.length (argv d) - Z.to_nat (optind d)) by lia.
  transitivity (map (fun k => nth (Z.to_nat (optind d) + k) (argv d) "")
                    (seq 0 (List.length (argv d) - Z.to_nat (optind d)))).
  { apply map_ext. intros k. unfold argv_at.
    replace (optind d + Z.of_nat k <? 0)%Z with false
      by (symmetry; apply Z.ltb_ge; lia).
    f_equal. lia. }
  generalize (Z.to_nat (optind d)) as n. generalize (argv d) as l.
  induction l as [|x l IH]; intros n.
  - simpl. destruct n; reflexivity.
  - destruct n as [|n].
    + simpl. f_equal. rewrite <- seq_shift, map_map.
      specialize (IH 0). simpl in IH. rewrite Nat.sub_0_r in IH.
      exact IH.
    + simpl. apply IH.
Qed.

Lemma last_cons_default {A} (l : list A) : forall (x a b : A),
  last (x :: l) a = last (x :: l) b.
Proof.
  induction l as [|y l IH]; intros x a b; [reflexivity|].
  change (last (y :: l) a = last (y :: l) b). apply IH.
Qed.

Section ParseMore.

Variable getopt_long : getopt_data -> Z * getopt_data.

(** X8. Whatever [getopt_long] does, [parseSettings] ends in one of these
    ways: it returns and has printed nothing; or it has written the line of
    the error and the help text and called [exit(1)], after a return value
    [':'] or ['?']; or the library never ended the scan.  It never throws and
    never exits with another status. *)
Theorem parseSettings_outcomes (fuel : nat) (args : list string) :
  (exists settings, parseSettings getopt_long fuel args = ([], Returns settings))
  \/ parseSettings getopt_long fuel args = ([], Unfinished)
  \/ (exists o d, (o = code ":" \/ o = code "?")
                  /\ parseSettings getopt_long fuel args
                     = (argument_error o d, Exits 1%Z)).
Proof.
  unfold parseSettings.
  assert (Hloop : forall fuel d settings,
    (exists r, parseSettings_loop getopt_long fuel d settings = ([], Returns r))
    \/ parseSettings_loop getopt_long fuel d settings = ([], Unfinished)
    \/ (exists o d', (o = code ":" \/ o = code "?")
                     /\ parseSettings_loop getopt_long fuel d settings
                        = (argument_error o d', Exits 1%Z))).
  { clear fuel. induction fuel as [|fuel IH]; intros d settings;
      [right; left; reflexivity|].
    cbn [parseSettings_loop]. destruct (getopt_long d) as [o d1].
    destruct (o >=? 0)%Z; [|left; eexists; reflexivity].
    destruct (o =? code "c")%Z; [apply IH|].
    destruct (o =? code ":")%Z eqn:Hcolon.
    { right. right. exists o, d1. split; [left; apply Z.eqb_eq; assumption|].
      unfold argument_error, option_error_message. rewrite Hcolon. reflexivity. }
    destruct (o =? code "?")%Z eqn:Hquestion; [|apply IH].
    right. right. exists o, d1. split; [right; apply Z.eqb_eq; assumption|].
    unfold argument_error, option_error_message. rewrite Hcolon. reflexivity. }
  destruct (Hloop fuel (getopt_start args) default_settings)
    as [[r Hr]|[Hr|[o [d [Ho Hr]]]]]; rewrite Hr.
  - left. eexists. reflexivity.
  - right. left. reflexivity.
  - right. right. exists o, d. split; [assumption|reflexivity].
Qed.

Lemma parseSettings_loop_options d values o d' :
  scan_options getopt_long d values o d' ->
  (o < 0)%Z ->
  exists n, forall fuel settings, n <= fuel ->
    parseSettings_loop getopt_long fuel d settings
    = ([], Returns (d', mkSettings (last values (clang_format_exe settings))
                                   (inputs settings))).
Proof.
  intros Hscan Ho.
  induction Hscan as [d Hend|d values o d' Hc Hscan IH|d values o d' Hcont Hc Hscan IH].
  - exists 1. intros [|fuel] [exe ins] Hfuel; [lia|].
    cbn [parseSettings_loop]. destruct (getopt_long d) as [o d1].
    cbn [fst snd] in *. replace (o >=? 0)%Z with false by lia. reflexivity.
  - destruct (IH Ho) as [n Hn]. exists (S n).
    intros [|fuel] settings Hfuel; [lia|].
    cbn [parseSettings_loop]. destruct (getopt_long d) as [o1 d1].
    cbn [fst snd] in *. subst o1. rewrite code_c. simpl.
    rewrite Hn by lia. cbn [clang_format_exe inputs].
    destruct values as [|v values]; [reflexivity|].
    change (last (optarg d1 :: v :: values) (clang_format_exe settings))
      with (last (v :: values) (clang_format_exe settings)).
    rewrite (last_cons_default values v (optarg d1) (clang_format_exe settings)).
    reflexivity.
  - destruct (IH Ho) as [n Hn]. exists (S n).
    intros [|fuel] settings Hfuel; [lia|].
    cbn [parseSettings_loop]. destruct (getopt_long d) as [o1 d1].
    cbn [fst snd] in *. unfold ends_scan in Hcont.
    apply orb_false_iff in Hcont. destruct Hcont as [Hcont Hq].
    apply orb_false_iff in Hcont. destruct Hcont as [Hneg Hcolon].
    replace (o1 >=? 0)%Z with true by lia.
    replace (o1 =? code "c")%Z with false by (symmetry; apply Z.eqb_neq; assumption).
    rewrite Hcolon, Hq. apply Hn. lia.
Qed.

(** X9. When the scan of the options ends without error, the formatter is
    the value of the last [-c] or [--clang-format] read, or [clang-format]
    when there was none, and the inputs are the elements of [argv] from
    [optind] on, in their order. *)
Theorem parseSettings_last_option_wins
    (args values : list string) (o : Z) (d' : getopt_data) :
  scan_options getopt_long (getopt_start args) values o d' ->
  (o < 0)%Z ->
  (0 <= optind d')%Z ->
  exists n, forall fuel, n <= fuel ->
    parseSettings getopt_long fuel args
    = ([], Returns (mkSettings (last values "clang-format")
                               (skipn (Z.to_nat (optind d')) (argv d')))).
Proof.
  intros Hscan Ho Hoptind.
  destruct (parseSettings_loop_options _ _ _ _ Hscan Ho) as [n Hn]. exists n.
  intros fuel Hfuel. unfold parseSettings. rewrite Hn by assumption.
  unfold bind. simpl. rewrite positional_skipn by assumption. reflexivity.
Qed.

End ParseMore.

Lemma parseSettings_last_option_wins_witness :
  let args := ["clang-format-hook"; "-c"; "a"; "src"; "--clang-format=b"; "lib"] in
  exists n, forall fuel, n <= fuel ->
    parseSettings Glibc.getopt_long fuel args
    = ([], Returns (mkSettings "b" ["src"; "lib"])).
Proof.
  intros args.
  set (d1 := snd (Glibc.getopt_long (getopt_start args))).
  set (d2 := snd (Glibc.getopt_long d1)).
  apply (parseSettings_last_option_wins Glibc.getopt_long args
           [optarg d1; optarg d2]
           (fst (Glibc.getopt_long d2)) (snd (Glibc.getopt_long d2))).
  - apply scan_options_c; [reflexivity|].
    apply scan_options_c; [reflexivity|].
    apply scan_options_end. reflexivity.
  - reflexivity.
  - vm_compute. discriminate.
Defined.

(** ** [main]: what a run prints, opens and spawns *)

Lemma stdout_of_app t1 t2 :
  stdout_of (t1 ++ t2) = (stdout_of t1 ++ stdout_of t2)%string.
Proof.
  induction t1 as [|e t1 IH]; [reflexivity|].
  destruct e; simpl; rewrite IH; try reflexivity.
  symmetry. apply string_append_assoc.
Qed.

Lemma stderr_of_app t1 t2 :
  stderr_of (t1 ++ t2) = (stderr_of t1 ++ stderr_of t2)%string.
Proof.
  induction t1 as [|e t1 IH]; [reflexivity|].
  destruct e; simpl; rewrite IH; try reflexivity.
  symmetry. apply string_append_assoc.
Qed.

Lemma commands_app t1 t2 : commands (t1 ++ t2) = commands t1 ++ commands t2.
Proof.
  induction t1 as [|e t1 IH]; [reflexivity|].
  destruct e; simpl; rewrite IH; reflexivity.
Qed.

Lemma opened_app t1 t2 : opened (t1 ++ t2) = opened t1 ++ opened t2.
Proof.
  induction t1 as [|e t1 IH]; [reflexivity|].
  destruct e; simpl; rewrite IH; reflexivity.
Qed.

Lemma bind_ret {A B} (a : A) (k : A -> M B) : bind (ret a) k = k a.
Proof. unfold bind, ret, trace, result. simpl. destruct (k a); reflexivity. Qed.

Lemma bind_ext {A B} (m : M A) (f g : A -> M B) :
  (forall a, f a = g a) -> bind m f = bind m g.
Proof.
  intros Hfg. unfold bind. destruct (result m); try reflexivity.
  rewrite Hfg. reflexivity.
Qed.

Lemma bind_assoc {A B C} (m : M A) (f : A -> M B) (g : B -> M C) :
  bind (bind m f) g = bind m (fun a => bind (f a) g).
Proof.
  destruct m as [t [a| | |]]; unfold bind, trace, result; simpl;
    try reflexivity.
  destruct (f a) as [t' [b| | |]]; simpl; rewrite ?app_assoc; reflexivity.
Qed.

Section RunMore.

Variable getopt_long : getopt_data -> Z * getopt_data.
Variable popen : string -> option (string * Z).
Variable resolve : string -> fsnode.
Variable indeterminate : Z.

Local Abbreviation parse := (parseSettings getopt_long).
Local Abbreviation format_diff := (getFileFormatDiff popen indeterminate).
Local Abbreviation checks_of := (check_files popen indeterminate).
Local Abbreviation found := (discovered resolve).
Local Abbreviation returns := (check_returns popen indeterminate).
Local Abbreviation run := (main getopt_long popen resolve indeterminate).

(** A check that returns opened the file and ran one process. *)
Lemma check_returns_trace exe file :
  returns exe file ->
  trace (format_diff file exe)
  = [Ifstream (native file); Popen (check_command exe file)].
Proof.
  intros [verdict Hverdict].
  destruct (read_file file) as [contents|] eqn:Hread.
  - destruct (popen (check_command exe file)) as [[stream status]|] eqn:Hpopen.
    + erewrite getFileFormatDiff_launched by eassumption. reflexivity.
    + erewrite getFileFormatDiff_not_launched in Hverdict by eassumption.
      discriminate.
  - destruct (getFileFormatDiff_not_read popen indeterminate file exe Hread)
      as [what Hwhat]. rewrite Hwhat in Hverdict. discriminate.
Qed.

Lemma check_files_events files exe : forall flag,
  (forall file, In file files -> returns exe file) ->
  stdout_of (trace (checks_of files exe flag))
  = String.concat "" (map (report popen indeterminate exe) files)
  /\ stderr_of (trace (checks_of files exe flag)) = ""
  /\ commands (trace (checks_of files exe flag))
     = map (check_command exe) files
  /\ opened (trace (checks_of files exe flag)) = map native files.
Proof.
  induction files as [|file files IH]; intros flag Hall;
    [repeat split; reflexivity|].
  assert (Hrest : forall f, In f files -> returns exe f)
    by (intros; apply Hall; right; assumption).
  pose proof (Hall file (or_introl eq_refl)) as Hfile.
  pose proof (check_returns_trace exe file Hfile) as Htrace.
  destruct Hfile as [verdict Hverdict].
  assert (Hconcat : forall s l,
            String.concat "" (s :: l) = (s ++ String.concat "" l)%string).
  { intros s [|x l]; [symmetry; apply append_empty_r|reflexivity]. }
  cbn [check_files map]. rewrite trace_bind, Hverdict, Htrace, Hconcat.
  unfold report at 1, verdict_of. rewrite Hverdict.
  destruct verdict as [d|].
  - rewrite trace_bind.
    change (result (printDiff file d)) with (@Returns unit tt). cbv iota.
    destruct (IH true Hrest) as [Hout [Herr [Hcmd Hopen]]].
    rewrite !stdout_of_app, !stderr_of_app, !commands_app, !opened_app.
    rewrite Hout, Herr, Hcmd, Hopen. repeat split; reflexivity.
  - destruct (IH flag Hrest) as [Hout [Herr [Hcmd Hopen]]].
    rewrite !stdout_of_app, !stderr_of_app, !commands_app, !opened_app.
    rewrite Hout, Herr, Hcmd, Hopen. repeat split; reflexivity.
Qed.

Lemma discover_events inputs :
  stdout_of (map Discover inputs) = ""
  /\ stderr_of (map Discover inputs) = ""
  /\ commands (map Discover inputs) = []
  /\ opened (map Discover inputs) = [].
Proof. induction inputs as [|p inputs IH]; simpl; auto. Qed.

(** X10. A run ends with exit code 0, 1 or 2, or without an exit code (an
    exception left [main], or the library never ended the scan): no other
    status is ever returned. *)
Theorem main_exit_codes (fuel : nat) (args : list string) :
  exit_code (run fuel args) = None
  \/ exit_code (run fuel args) = Some 0%Z
  \/ exit_code (run fuel args) = Some 1%Z
  \/ exit_code (run fuel args) = Some 2%Z.
Proof.
  destruct (result (parse fuel args)) as [settings| | |] eqn:Hparse.
  - destruct (found (inputs settings)) as [files|what] eqn:Hfound.
    + rewrite (main_after_parse _ popen resolve indeterminate _ _ _ _
                 Hparse Hfound).
      cbv zeta. unfold exit_code, result at 1. cbn [snd].
      destruct (check_files_result popen indeterminate files
                  (clang_format_exe settings) false)
        as [[[|] Hb]|[what Hw]].
      * rewrite Hb. auto.
      * rewrite Hb. auto.
      * rewrite Hw. auto.
    + destruct (main_discovery_throws _ popen resolve indeterminate _ _ _ _
                  Hparse Hfound) as [before [p [after [_ [_ Hrun]]]]].
      rewrite Hrun. left. reflexivity.
  - left. unfold main, exit_code. rewrite result_bind, Hparse. reflexivity.
  - unfold parseSettings in Hparse.
    destruct (parseSettings_loop_cases getopt_long fuel (getopt_start args)
                default_settings) as [[r Hr]|[Hr|[o [d' Hr]]]];
      rewrite Hr in Hparse; unfold bind in Hparse; simpl in Hparse;
      try discriminate.
    injection Hparse as <-.
    right. right. left. unfold main, exit_code.
    rewrite result_bind. unfold parseSettings. rewrite Hr. reflexivity.
  - left. unfold main, exit_code. rewrite result_bind, Hparse. reflexivity.
Qed.

(** X11. In a run whose arguments are accepted, whose discovery returns
    and whose checks all return, with the checks made one after the other
    on one thread, the program writes on its standard output, for each
    discovered file in order, the two lines of its report when its check
    gave a verdict and nothing otherwise. *)
Theorem main_prints_reports (fuel : nat) (args : list string)
    (settings : Settings) (files : list path) :
  result (parse fuel args) = Returns settings ->
  found (inputs settings) = Ok files ->
  (forall file, In file files -> returns (clang_format_exe settings) file) ->
  stdout_of (trace (run fuel args))
  = String.concat ""
      (map (report popen indeterminate (clang_format_exe settings)) files).
Proof.
  intros Hparse Hfound Hall.
  rewrite (main_after_parse _ _ _ _ _ _ _ _ Hparse Hfound). cbv zeta.
  unfold trace at 1. cbn [fst].
  destruct (check_files_events _ _ false Hall) as [Hout _].
  destruct (discover_events (inputs settings)) as [Dout _].
  rewrite stdout_of_app, Hout, Dout. reflexivity.
Qed.

(** X12. In such a run every input path is handed to discovery once, in
    the order of the command line, before any file is opened; then, with
    the checks made one after the other on one thread, every discovered file
    is opened once and one process is spawned for it, in the order of
    discovery. *)
Theorem main_visits_each_file_once (fuel : nat) (args : list string)
    (settings : Settings) (files : list path) :
  result (parse fuel args) = Returns settings ->
  found (inputs settings) = Ok files ->
  (forall file, In file files -> returns (clang_format_exe settings) file) ->
  exists checks,
    trace (run fuel args) = map Discover (inputs settings) ++ checks
    /\ roots checks = []
    /\ opened checks = map native files
    /\ commands checks = map (check_command (clang_format_exe settings)) files.
Proof.
  intros Hparse Hfound Hall.
  rewrite (main_after_parse _ _ _ _ _ _ _ _ Hparse Hfound). cbv zeta.
  unfold trace at 1. cbn [fst].
  destruct (check_files_events _ _ false Hall) as [_ [_ [Hcmd Hopen]]].
  eexists. split; [reflexivity|].
  split; [apply check_files_roots|]. split; assumption.
Qed.

(** X13. On one thread, checking a list of files in two parts is checking
    the first part and then the second with the flag the first part left:
    the flag carries over, and an exception in the first part keeps the
    second from starting. *)
Theorem check_files_app (first second : list path) (exe : string) (flag : bool) :
  checks_of (first ++ second) exe flag
  = bind (checks_of first exe flag) (fun flag' => checks_of second exe flag').
Proof.
  revert flag. induction first as [|file first IH]; intros flag.
  - cbn [app check_files]. rewrite bind_ret. reflexivity.
  - cbn [app check_files]. rewrite bind_assoc. apply bind_ext. intros [d|].
    + rewrite bind_assoc. apply bind_ext. intros _. apply IH.
    + apply IH.
Qed.

Lemma discovered_nothing inputs :
  (forall p, In p inputs ->
             is_directory (mkPath p (resolve p)) = Ok false
             /\ has_extension (mkPath p (resolve p))
                && allowed_extension (extension (mkPath p (resolve p))) = false) ->
  found inputs = Ok [].
Proof.
  unfold discovered.
  induction inputs as [|p inputs IH]; intros Hall; [reflexivity|].
  destruct (Hall p (or_introl eq_refl)) as [Hdir Hext].
  cbn [flat_map_ok]. rewrite listSrcFiles_cases, Hdir, Hext, IH; [reflexivity|].
  intros q Hq. apply Hall. right. assumption.
Qed.

(** X17. Inputs whose status can be read, that are not directories and do
    not end in [.cpp] or [.h], among them paths that do not exist, are
    ignored without a word: when the command line has only such inputs, the
    run checks nothing, prints nothing and returns 0. *)
Theorem main_ignores_other_inputs (fuel : nat) (args : list string)
    (settings : Settings) :
  result (parse fuel args) = Returns settings ->
  (forall p, In p (inputs settings) ->
             is_directory (mkPath p (resolve p)) = Ok false
             /\ has_extension (mkPath p (resolve p))
                && allowed_extension (extension (mkPath p (resolve p))) = false) ->
  run fuel args = (map Discover (inputs settings), Returns 0%Z).
Proof.
  intros Hparse Hall.
  rewrite (main_after_parse _ _ _ _ _ _ _ _ Hparse (discovered_nothing _ Hall)).
  simpl. rewrite app_nil_r. reflexivity.
Qed.

(** X19. When the discovery of an input path throws, the run ends by that
    exception and without an exit code: the inputs before it and the input
    itself were handed to discovery, the inputs after it were not, no file
    was opened, no process was spawned and nothing was printed. *)
Theorem main_discovery_aborts (fuel : nat) (args : list string)
    (settings : Settings) (what : string) :
  result (parse fuel args) = Returns settings ->
  found (inputs settings) = filesystem_error what ->
  exists before p after,
    inputs settings = (before ++ p :: after)%list
    /\ listSrcFiles (mkPath p (resolve p)) = filesystem_error what
    /\ run fuel args = (map Discover (before ++ [p]), Throws what)
    /\ exit_code (run fuel args) = None.
Proof.
  intros Hparse Hfound.
  destruct (main_discovery_throws _ popen resolve indeterminate _ _ _ _
              Hparse Hfound) as [before [p [after [Heq [Hp Hrun]]]]].
  exists before, p, after. repeat split; try assumption.
  rewrite Hrun. reflexivity.
Qed.

End RunMore.

(** ** The parallel loop: exclusion and the stream *)

Section ParallelMore.

Variable tasks : list (path * option string).

Lemma program_lines i line1 line2 :
  program tasks i = [SetFlag; Lock; Write line1; Write line2; Unlock] ->
  report_lines tasks i = [line1; line2].
Proof. intros H. unfold report_lines. rewrite H. reflexivity. Qed.

Lemma output_invariant_start : output_invariant tasks start.
Proof.
  exists []. split; [constructor|]. split; [|reflexivity].
  intros i. simpl. split; [contradiction|]. intros [_ H]. lia.
Qed.

Lemma step_output_invariant i s s' :
  invariant tasks s -> output_invariant tasks s ->
  step tasks i s = Some s' -> output_invariant tasks s'.
Proof.
  intros [Hmutex _] [order [Hnodup [Horder Hcout]]] Hstep.
  unfold step, next_action in Hstep.
  destruct (program_shape tasks i) as [Hprog|[line1 [line2 Hprog]]];
    rewrite Hprog in Hstep.
  { destruct (pc s i); discriminate. }
  assert (Hne : program tasks i <> []) by (rewrite Hprog; discriminate).
  pose proof (program_lines i line1 line2 Hprog) as Hlines.
  pose proof (Hmutex i) as Hi. unfold inside in Hi.
  assert (Hsame : forall (s1 : shared),
            pc s1 = advance s i -> pc s i <> 4 ->
            forall j, (In j order <-> program tasks j <> [] /\ 5 <= pc s1 j)).
  { intros s1 Hpc Hnot j. rewrite Horder, Hpc. unfold advance.
    destruct (Nat.eqb_spec j i) as [->|Hji]; [|reflexivity].
    split; intros [H1 H2]; (split; [assumption|lia]). }
  destruct (pc s i) as [|[|[|[|[|k]]]]] eqn:Hpc; simpl in Hstep;
    try (destruct k; discriminate).
  - (* the store to the flag *)
    injection Hstep as <-. exists order. split; [assumption|].
    split; [apply Hsame; [reflexivity|lia]|].
    simpl. rewrite Hcout. unfold written. simpl.
    destruct (output_mutex s) as [holder|] eqn:Hholder; [|reflexivity].
    assert (holder <> i).
    { intros ->. pose proof (proj1 Hi eq_refl). lia. }
    rewrite pc_advance_other by assumption. reflexivity.
  - (* the mutex is taken *)
    destruct (output_mutex s) as [holder|] eqn:Hholder; [discriminate|].
    injection Hstep as <-. exists order. split; [assumption|].
    split; [apply Hsame; [reflexivity|lia]|].
    simpl. rewrite Hcout. unfold written. simpl. rewrite Hholder.
    rewrite pc_advance_same, Hpc. reflexivity.
  - (* the first line *)
    assert (Hheld : output_mutex s = Some i) by (apply Hi; split; [assumption|lia]).
    injection Hstep as <-. exists order. split; [assumption|].
    split; [apply Hsame; [reflexivity|lia]|].
    simpl. rewrite Hcout. unfold written. simpl. rewrite Hheld.
    rewrite pc_advance_same, Hpc, Hlines. simpl. rewrite app_nil_r. reflexivity.
  - (* the second line *)
    assert (Hheld : output_mutex s = Some i) by (apply Hi; split; [assumption|lia]).
    injection Hstep as <-. exists order. split; [assumption|].
    split; [apply Hsame; [reflexivity|lia]|].
    simpl. rewrite Hcout. unfold written. simpl. rewrite Hheld.
    rewrite pc_advance_same, Hpc, Hlines. simpl.
    rewrite <- app_assoc. reflexivity.
  - (* the mutex is released *)
    assert (Hheld : output_mutex s = Some i) by (apply Hi; split; [assumption|lia]).
    injection Hstep as <-. exists (order ++ [i]).
    assert (Hnew : ~ In i order) by (rewrite Horder; lia).
    split; [|split].
    + apply NoDup_app; [assumption|repeat constructor; simpl; tauto|].
      intros j Hj [<-|[]]. contradiction.
    + intros j. rewrite in_app_iff, Horder. simpl. unfold advance.
      destruct (Nat.eqb_spec j i) as [->|Hji].
      * split; [intros _; split; [assumption|lia]|]. intros _. right. left. reflexivity.
      * split; [intros [H|[H|[]]]; [assumption|congruence]|]. intros H. left. assumption.
    + simpl. rewrite Hcout. unfold written. simpl. rewrite Hheld, Hpc, Hlines.
      rewrite flat_map_app. simpl. rewrite Hlines, app_nil_r. reflexivity.
Qed.

Lemma run_schedule_output_invariant schedule : forall s s',
  invariant tasks s -> output_invariant tasks s ->
  run_schedule tasks schedule s = Some s' -> output_invariant tasks s'.
Proof.
  induction schedule as [|i schedule IH]; intros s s' Hinv Hout Hrun;
    simpl in Hrun.
  - injection Hrun as <-. assumption.
  - destruct (step tasks i s) as [s1|] eqn:Hstep; [|discriminate].
    eapply IH; [| |eassumption].
    + eapply step_invariant; eassumption.
    + eapply step_output_invariant; eassumption.
Qed.

(** X14. In every interleaving at most one iteration is between taking and
    releasing [output_mutex]. *)
Theorem parallel_loop_mutual_exclusion (schedule : list nat) (s : shared)
    (i j : nat) :
  run_schedule tasks schedule start = Some s ->
  inside tasks s i -> inside tasks s j -> i = j.
Proof.
  intros Hrun Hi Hj.
  pose proof (run_schedule_invariant _ _ _ _ (invariant_start tasks) Hrun)
    as [Hmutex _].
  apply Hmutex in Hi. apply Hmutex in Hj. congruence.
Qed.

(** X15. In every interleaving, once all iterations are complete, the
    stream holds whole reports only: the two lines of each file that got a
    verdict, each file once, one file after the other in some order; lines
    of two files are never mixed. *)
Theorem parallel_loop_whole_reports (schedule : list nat) (s : shared) :
  run_schedule tasks schedule start = Some s ->
  complete tasks s ->
  exists order,
    NoDup order
    /\ (forall i, In i order <-> program tasks i <> [])
    /\ cout s = flat_map (report_lines tasks) order.
Proof.
  intros Hrun Hcomplete.
  pose proof (run_schedule_invariant _ _ _ _ (invariant_start tasks) Hrun)
    as Hinv.
  destruct (run_schedule_output_invariant _ _ _ (invariant_start tasks)
              output_invariant_start Hrun) as [order [Hnodup [Horder Hcout]]].
  exists order. split; [assumption|]. split.
  - intros i. rewrite Horder. split; [tauto|]. intros Hne. split; [assumption|].
    specialize (Hcomplete i). unfold next_action in Hcomplete.
    apply nth_error_None in Hcomplete.
    destruct (program_shape tasks i) as [Hprog|[line1 [line2 Hprog]]];
      [contradiction|].
    rewrite Hprog in Hcomplete. simpl in Hcomplete. lia.
  - rewrite Hcout. unfold written.
    destruct (output_mutex s) as [holder|] eqn:Hholder; [|apply app_nil_r].
    destruct Hinv as [Hmutex _]. apply Hmutex in Hholder.
    destruct Hholder as [Hne Hpc].
    specialize (Hcomplete holder). unfold next_action in Hcomplete.
    apply nth_error_None in Hcomplete.
    destruct (program_shape tasks holder) as [Hprog|[line1 [line2 Hprog]]];
      [contradiction|].
    rewrite Hprog in Hcomplete. simpl in Hcomplete. lia.
Qed.

End ParallelMore.

(** ** The small run, again *)

Lemma main_prints_reports_witness :
  let args := ["clang-format-hook"; "root"] in
  let files := [Scenario.file "root/b.h"; Scenario.file "root/a.cpp"] in
  result (parseSettings Glibc.getopt_long 8 args)
  = Returns (mkSettings "clang-format" ["root"])
  /\ discovered Scenario.resolve ["root"] = Ok files
  /\ stdout_of (trace (Scenario.main 8 args))
     = ("File " ++ quoted "root/b.h" ++ " needs formatting" ++ endl
        ++ "root/b.h changes when formatted." ++ endl)%string.
Proof.
  intros args files. split; [reflexivity|]. split; [reflexivity|].
  unfold Scenario.main.
  rewrite (main_prints_reports Glibc.getopt_long Scenario.popen
             Scenario.resolve 0%Z 8 args (mkSettings "clang-format" ["root"])
             files eq_refl eq_refl).
  - vm_compute. reflexivity.
  - intros file [<-|[<-|[]]]; eexists; vm_compute; reflexivity.
Defined.

Lemma main_visits_each_file_once_witness :
  let args := ["clang-format-hook"; "root"] in
  let files := [Scenario.file "root/b.h"; Scenario.file "root/a.cpp"] in
  discovered Scenario.resolve ["root"] = Ok files
  /\ exists checks,
       trace (Scenario.main 8 args) = [Discover "root"] ++ checks
       /\ opened checks = ["root/b.h"; "root/a.cpp"]
       /\ commands checks = ["clang-format root/b.h"; "clang-format root/a.cpp"].
Proof.
  intros args files. split; [reflexivity|].
  destruct (main_visits_each_file_once Glibc.getopt_long Scenario.popen
              Scenario.resolve 0%Z 8 args (mkSettings "clang-format" ["root"])
              files eq_refl eq_refl)
    as [checks [Htrace [_ [Hopened Hcommands]]]].
  - intros file [<-|[<-|[]]]; eexists; vm_compute; reflexivity.
  - exists checks. split; [exact Htrace|]. split; [exact Hopened|exact Hcommands].
Defined.

Lemma main_discovery_aborts_witness :
  let args := ["clang-format-hook"; "root"; "project"; "root/a.cpp"] in
  let what := ("filesystem error: directory iterator cannot open "
               ++ "directory: Permission denied [project/private]")%string in
  result (parseSettings Glibc.getopt_long 8 args)
  = Returns (mkSettings "clang-format" ["root"; "project"; "root/a.cpp"])
  /\ discovered Scenario.resolve ["root"; "project"; "root/a.cpp"]
     = filesystem_error what
  /\ exists before p after,
       ["root"; "project"; "root/a.cpp"] = (before ++ p :: after)%list
       /\ listSrcFiles (mkPath p (Scenario.resolve p)) = filesystem_error what
       /\ Scenario.main 8 args = (map Discover (before ++ [p]), Throws what)
       /\ exit_code (Scenario.main 8 args) = None.
Proof.
  intros args what. split; [reflexivity|]. split; [reflexivity|].
  apply (main_discovery_aborts Glibc.getopt_long Scenario.popen
           Scenario.resolve 0%Z 8 args
           (mkSettings "clang-format" ["root"; "project"; "root/a.cpp"]) what);
    reflexivity.
Defined.

Lemma main_ignores_other_inputs_witness :
  let args := ["clang-format-hook"; "root/c.txt"; "no-such-directory"] in
  result (parseSettings Glibc.getopt_long 8 args)
  = Returns (mkSettings "clang-format" ["root/c.txt"; "no-such-directory"])
  /\ Scenario.main 8 args
     = ([Discover "root/c.txt"; Discover "no-such-directory"], Returns 0%Z).
Proof.
  intros args. split; [reflexivity|].
  apply (main_ignores_other_inputs Glibc.getopt_long Scenario.popen
           Scenario.resolve 0%Z 8 args
           (mkSettings "clang-format" ["root/c.txt"; "no-such-directory"])).
  - reflexivity.
  - intros p [<-|[<-|[]]]; split; reflexivity.
Defined.

Lemma parallel_loop_mutual_exclusion_witness :
  exists s,
    run_schedule scenario_tasks [0; 2; 2] start = Some s
    /\ inside scenario_tasks s 2
    /\ 2 = 2.
Proof.
  destruct (run_schedule scenario_tasks [0; 2; 2] start) as [s|] eqn:Hrun;
    [|vm_compute in Hrun; discriminate].
  exists s. split; [reflexivity|].
  assert (Htwo : inside scenario_tasks s 2).
  { vm_compute in Hrun. injection Hrun as <-. split; [discriminate|].
    simpl. lia. }
  split; [exact Htwo|].
  exact (parallel_loop_mutual_exclusion scenario_tasks [0; 2; 2] s 2 2
           Hrun Htwo Htwo).
Defined.

Lemma scenario_complete :
  forall s, run_schedule scenario_tasks [0; 2; 2; 2; 2; 2; 0; 0; 0; 0] start = Some s ->
            complete scenario_tasks s.
Proof.
  intros s Hrun. vm_compute in Hrun. injection Hrun as <-.
  intros [|[|[|i]]]; try reflexivity.
  unfold next_action. simpl. destruct i; reflexivity.
Qed.

Lemma parallel_loop_whole_reports_witness :
  exists s,
    run_schedule scenario_tasks [0; 2; 2; 2; 2; 2; 0; 0; 0; 0] start = Some s
    /\ exists order,
         NoDup order
         /\ (forall i, In i order <-> program scenario_tasks i <> [])
         /\ cout s = flat_map (report_lines scenario_tasks) order.
Proof.
  destruct (run_schedule scenario_tasks [0; 2; 2; 2; 2; 2; 0; 0; 0; 0] start)
    as [s|] eqn:Hrun; [|vm_compute in Hrun; discriminate].
  exists s. split; [reflexivity|].
  apply (parallel_loop_whole_reports scenario_tasks
           [0; 2; 2; 2; 2; 2; 0; 0; 0; 0] s Hrun).
  apply scenario_complete. assumption.
Defined.

Lemma parallel_flag_is_sequential_flag_witness :
  exists s,
    run_schedule scenario_tasks [0; 2; 2; 2; 2; 2; 0; 0; 0; 0] start = Some s
    /\ result (check_files Scenario.popen 0%Z
                 [Scenario.file "root/b.h"; Scenario.file "root/a.cpp";
                  Scenario.file "root/c.txt"] "clang-format" false)
       = Returns (inputs_need_formatting s).
Proof.
  destruct (run_schedule scenario_tasks [0; 2; 2; 2; 2; 2; 0; 0; 0; 0] start)
    as [s|] eqn:Hrun; [|vm_compute in Hrun; discriminate].
  exists s. split; [reflexivity|].
  apply (parallel_flag_is_sequential_flag Scenario.popen 0%Z "clang-format"
           [Scenario.file "root/b.h"; Scenario.file "root/a.cpp";
            Scenario.file "root/c.txt"]
           [0; 2; 2; 2; 2; 2; 0; 0; 0; 0] s).
  - intros file [<-|[<-|[<-|[]]]]; eexists; vm_compute; reflexivity.
  - exact Hrun.
  - apply scenario_complete. exact Hrun.
Defined.
